(** * anilist-tools: the rate-limited AniList client and the relation walker

    A shallow embedding of [utils.py] (request transport, pagination driver,
    [async_any]) and of the core of [upcoming_sequels.py] (the relation graph
    walker, the user list union, the membership test and the title printed).

    Conventions.
    - JSON values decoded by [response.json()] are the inductive type [json];
      a Python [dict] is an association list in insertion order (the decoder
      never produces two entries with one key).  JSON numbers are integers;
      fractional numbers are outside the embedding.
    - A Python expression that can raise evaluates to a [Result]; code that
      performs I/O threads a [World] (requests sent, the query counter, what
      was printed, what was slept).
    - Every [while] loop of the source takes a [fuel] argument; running out of
      fuel is the outcome [None], distinct from every Python outcome. *)

From stdpp Require Import gmap strings list pretty.
From Stdlib Require Import ZArith Lia.

Set Warnings "-register-all,-clear-no-such-hyp".

Local Open Scope string_scope.
Local Open Scope list_scope.
Local Open Scope Z_scope.

(** ** Python values and exceptions *)

Inductive json : Type :=
  | JNull
  | JBool (b : bool)
  | JInt (z : Z)
  | JStr (s : string)
  | JList (l : list json)
  | JObj (kvs : list (string * json)).

Inductive PyExc : Type :=
  | AssertionError (msg : string)
  | TypeError
  | KeyError (key : json)
  | IndexError
  | AttributeError
  | ValueError
  | StopIteration
  | JSONDecodeError
  | HTTPError (status : Z)
  | RequestException (exc_type : string).

Inductive Result (A : Type) : Type :=
  | Ok (a : A)
  | Raise (e : PyExc).
Arguments Ok {A} a.
Arguments Raise {A} e.

Definition is_raise {A} (r : Result A) : bool :=
  match r with Ok _ => false | Raise _ => true end.

#[global] Instance Result_ret : MRet Result := λ A a, Ok a.

#[global] Instance Result_bind : MBind Result := λ A B k r,
  match r with Ok a => k a | Raise e => Raise e end.

(** *** Dictionaries *)

Abbreviation pydict := (list (string * json)).

Fixpoint dict_get (k : string) (d : pydict) : option json :=
  match d with
  | [] => None
  | (k', v) :: d' => if String.eqb k k' then Some v else dict_get k d'
  end.

Definition dict_has (k : string) (d : pydict) : bool :=
  match dict_get k d with Some _ => true | None => false end.

(** [d[k] = v]: an existing key keeps its position, a new key goes last. *)
Fixpoint dict_set (k : string) (v : json) (d : pydict) : pydict :=
  match d with
  | [] => [(k, v)]
  | (k', v') :: d' =>
      if String.eqb k k' then (k, v) :: d' else (k', v') :: dict_set k v d'
  end.

(** *** Operators on JSON values, with Python's behaviour on every type *)

(** [s1 in s2] on strings. *)
Fixpoint is_substring (s1 s2 : string) : bool :=
  String.prefix s1 s2 ||
  match s2 with
  | EmptyString => false
  | String _ s2' => is_substring s1 s2'
  end.

Definition is_str (s : string) (j : json) : bool :=
  match j with JStr s' => String.eqb s s' | _ => false end.

(** [s in x] for a string [s]. *)
Definition py_contains (s : string) (x : json) : Result bool :=
  match x with
  | JObj kvs => Ok (dict_has s kvs)
  | JList l => Ok (existsb (is_str s) l)
  | JStr s' => Ok (is_substring s s')
  | JNull | JBool _ | JInt _ => Raise TypeError
  end.

(** [bool(x)]. *)
Definition py_truthy (x : json) : bool :=
  match x with
  | JNull => false
  | JBool b => b
  | JInt z => negb (z =? 0)
  | JStr s => negb (String.eqb s "")
  | JList l => match l with [] => false | _ => true end
  | JObj kvs => match kvs with [] => false | _ => true end
  end.

(** [len(x)]. *)
Definition py_len (x : json) : Result Z :=
  match x with
  | JStr s => Ok (Z.of_nat (String.length s))
  | JList l => Ok (Z.of_nat (length l))
  | JObj kvs => Ok (Z.of_nat (length kvs))
  | JNull | JBool _ | JInt _ => Raise TypeError
  end.

(** [next(iter(x))]: the first key of a dict, the first element of a list,
    the first character of a string. *)
Definition py_first (x : json) : Result json :=
  match x with
  | JObj [] | JList [] | JStr EmptyString => Raise StopIteration
  | JObj ((k, _) :: _) => Ok (JStr k)
  | JList (e :: _) => Ok e
  | JStr (String c _) => Ok (JStr (String c EmptyString))
  | JNull | JBool _ | JInt _ => Raise TypeError
  end.

(** A sequence index: negative indices count from the end. *)
Definition seq_index (i len : Z) : option nat :=
  let i' := if i <? 0 then i + len else i in
  if (0 <=? i') && (i' <? len) then Some (Z.to_nat i') else None.

Definition as_index (k : json) : option Z :=
  match k with
  | JInt i => Some i
  | JBool b => Some (if b then 1 else 0)
  | _ => None
  end.

(** [x[k]]. *)
Definition py_getitem (x k : json) : Result json :=
  match x with
  | JObj kvs =>
      match k with
      | JStr s => match dict_get s kvs with Some v => Ok v | None => Raise (KeyError k) end
      | JList _ | JObj _ => Raise TypeError
      | _ => Raise (KeyError k)
      end
  | JList l =>
      match as_index k with
      | None => Raise TypeError
      | Some i =>
          match seq_index i (Z.of_nat (length l)) with
          | Some n => match nth_error l n with Some v => Ok v | None => Raise IndexError end
          | None => Raise IndexError
          end
      end
  | JStr s =>
      match as_index k with
      | None => Raise TypeError
      | Some i =>
          match seq_index i (Z.of_nat (String.length s)) with
          | Some n =>
              match String.get n s with
              | Some c => Ok (JStr (String c EmptyString))
              | None => Raise IndexError
              end
          | None => Raise IndexError
          end
      end
  | JNull | JBool _ | JInt _ => Raise TypeError
  end.

(** [x[s]] for a string [s]. *)
Definition item (x : json) (s : string) : Result json := py_getitem x (JStr s).

(** ** The world: the network and the observable effects *)

Inductive RetryAfter : Type :=
  | RetrySeconds (n : Z)       (* [int(header)] succeeds with [n] *)
  | RetryText (s : string).    (* [int(header)] raises ValueError *)

Record Response : Type := {
  status_code : Z;
  retry_after : option RetryAfter;   (* the [Retry-After] header, if present *)
  body : option json                 (* [response.json()]; [None]: not JSON *)
}.

Inductive HttpOutcome : Type :=
  | Responds (r : Response)
  | Throws (exc_type : string).  (* [requests.post] raises; [str(type(e))] *)

Inductive Delay : Type :=
  | Seconds (n : Z)
  | TenthOfSecond.

Inductive Printed : Type :=
  | PStr (s : string) (endl : string)
  | PValue (j : json).

Record World : Type := {
  sent : list json;          (* every [post_json] passed to [requests.post] *)
  total_queries : Z;         (* [safe_post_request.total_queries] *)
  stdout : list Printed;
  slept : list Delay
}.

Definition init_world : World :=
  {| sent := []; total_queries := 0; stdout := []; slept := [] |}.

Definition do_post (pj : json) (w : World) : World :=
  {| sent := sent w ++ [pj]; total_queries := total_queries w;
     stdout := stdout w; slept := slept w |}.

Definition do_print (p : Printed) (w : World) : World :=
  {| sent := sent w; total_queries := total_queries w;
     stdout := stdout w ++ [p]; slept := slept w |}.

Definition do_sleep (d : Delay) (w : World) : World :=
  {| sent := sent w; total_queries := total_queries w;
     stdout := stdout w; slept := slept w ++ [d] |}.

Definition count_query (w : World) : World :=
  {| sent := sent w; total_queries := total_queries w + 1;
     stdout := stdout w; slept := slept w |}.

(** The server: what the [n]-th [requests.post] of the run (counting from 0)
    answers to the posted body. *)
Abbreviation Network := (nat → json → HttpOutcome).

Definition MAX_PAGE_SIZE : Z := 50.

(** ** Request transport: [safe_post_request] *)

Definition PYODIDE_EXCEPTION : string := "<class 'pyodide.JsException'>".

Definition CR : string := String (Ascii.ascii_of_nat 13) EmptyString.

Definition spaces (n : nat) : string := String.concat "" (repeat " " n).

Definition retry_msg (seconds : Z) : string :=
  ("Rate limit encountered; waiting " ++ pretty seconds ++ " seconds...")%string.

(** The two [print] calls around a rate-limit wait. *)
Definition print_retry (msg : string) (w : World) : World :=
  do_print (PStr msg "") w.

Definition erase_retry (msg : string) (w : World) : World :=
  do_print (PStr (CR ++ spaces (String.length msg))%string CR) w.

Definition when (b : bool) (f : World → World) (w : World) : World :=
  if b then f w else w.

(** [requests]: [Response.ok] is false exactly when [raise_for_status]
    raises, that is for a status in [400, 600). *)
Definition response_ok (r : Response) : bool :=
  negb ((400 <=? status_code r) && (status_code r <? 600)).

Definition response_json (r : Response) : Result json :=
  match body r with Some j => Ok j | None => Raise JSONDecodeError end.

(** The response with which [while response is None or
    response.status_code == 429] is left, if it is left. *)
Definition loop_exit (response : option Response) : option Response :=
  match response with
  | Some r => if status_code r =? 429 then None else Some r
  | None => None
  end.

Section Transport.
Variable net : Network.

(** Lines 14-50: the retry loop, from the loop test on. *)
Fixpoint post_loop (fuel : nat) (post_json : json) (verbose : bool)
    (response : option Response) (w : World) : option (Result Response * World) :=
  match loop_exit response with
  | Some r => Some (Ok r, w)
  | None =>
      match fuel with
      | O => None
      | S fuel' =>
          let w1 := do_post post_json w in
          match net (length (sent w)) post_json with
          | Throws exc_type =>
              if String.eqb exc_type PYODIDE_EXCEPTION then
                let msg := retry_msg 61 in
                let w2 := erase_retry msg (do_sleep (Seconds 61) (print_retry msg w1)) in
                post_loop fuel' post_json verbose response w2
              else Some (Raise (RequestException exc_type), w1)
          | Responds r =>
              match retry_after r with
              | Some (RetrySeconds n) =>
                  let seconds := n + 1 in
                  let msg := retry_msg seconds in
                  let w2 := when verbose (print_retry msg) w1 in
                  let w3 := do_sleep (Seconds seconds) w2 in
                  let w4 := when verbose (erase_retry msg) w3 in
                  post_loop fuel' post_json verbose (Some r) w4
              | Some (RetryText _) => Some (Raise ValueError, w1)
              | None =>
                  post_loop fuel' post_json verbose (Some r) (do_sleep TenthOfSecond w1)
              end
          end
      end
  end.

(** Lines 52-59: what follows the loop, for the response it ended with. *)
Definition finish (r : Response) (w : World) : Result json * World :=
  let w1 := count_query w in
  if negb (response_ok r) then
    match (j ← response_json r; py_contains "errors" j) with
    | Raise e => (Raise e, w1)
    | Ok true =>
        match (j ← response_json r; item j "errors") with
        | Raise e => (Raise e, w1)
        | Ok errors => (Raise (HTTPError (status_code r)), do_print (PValue errors) w1)
        end
    | Ok false => (Raise (HTTPError (status_code r)), w1)
    end
  else (j ← response_json r; item j "data", w1).

Definition safe_post_request (fuel : nat) (post_json : json) (verbose : bool)
    (w : World) : option (Result json * World) :=
  match post_loop fuel post_json verbose None w with
  | None => None
  | Some (Raise e, w') => Some (Raise e, w')
  | Some (Ok r, w') => Some (finish r w')
  end.
End Transport.

(** ** Pagination driver: [depaginated_request] *)

Definition NO_PAGE_INFO : string := "Could not find pageInfo in paginated request.".
Definition MULTIPLE_FIELDS : string := "Cannot de-paginate query with multiple returned fields.".

(** Lines 86-90: unwrap until [pageInfo] is seen. *)
Fixpoint unwrap_loop (fuel : nat) (response_data : json) : option (Result json) :=
  match py_contains "pageInfo" response_data with
  | Raise e => Some (Raise e)
  | Ok true => Some (Ok response_data)
  | Ok false =>
      if negb (py_truthy response_data) then Some (Raise (AssertionError NO_PAGE_INFO))
      else
        match py_len response_data with
        | Raise e => Some (Raise e)
        | Ok n =>
            if negb (n =? 1) then Some (Raise (AssertionError MULTIPLE_FIELDS))
            else
              match (k ← py_first response_data; py_getitem response_data k) with
              | Raise e => Some (Raise e)
              | Ok inner =>
                  match fuel with
                  | O => None
                  | S fuel' => unwrap_loop fuel' inner
                  end
              end
        end
  end.

(** [list(v)], as [out_list.extend(v)] iterates its argument. *)
Definition py_iterate (v : json) : Result (list json) :=
  match v with
  | JList l => Ok l
  | JObj kvs => Ok (map (λ kv, JStr (fst kv)) kvs)
  | JStr s => Ok (map (λ c, JStr (String c EmptyString)) (String.list_ascii_of_string s))
  | JNull | JBool _ | JInt _ => Raise TypeError
  end.

(** Lines 93-94: the elements this page adds to [out_list].  [next] on an
    exhausted generator raises [StopIteration]; no decoded dict gets there. *)
Definition page_items (response_data : json) : Result (list json) :=
  n ← py_len response_data;
  if negb (n =? 2) then Raise (AssertionError MULTIPLE_FIELDS)
  else
    match response_data with
    | JObj kvs =>
        match filter (λ kv, negb (String.eqb (fst kv) "pageInfo")) kvs with
        | (_, v) :: _ => py_iterate v
        | [] => Raise StopIteration
        end
    | _ => Raise AttributeError
    end.

(** Line 96: [response_data['pageInfo']['hasNextPage']] as a condition. *)
Definition has_next_page (response_data : json) : Result bool :=
  page_info ← item response_data "pageInfo";
  h ← item page_info "hasNextPage";
  mret (py_truthy h).

Definition page_request (query : string) (paginated_variables : pydict) : json :=
  JObj [("query", JStr query); ("variables", JObj paginated_variables)].

Section Pagination.
Variable net : Network.

(** Lines 79-99: the [while True] loop, from its first line on. *)
Fixpoint page_loop (fuel : nat) (query : string) (paginated_variables : pydict)
    (verbose : bool) (out_list : list json) (page_num : Z) (w : World)
    : option (Result (list json) * World) :=
  match fuel with
  | O => None
  | S fuel' =>
      let paginated_variables := dict_set "page" (JInt page_num) paginated_variables in
      match safe_post_request net fuel' (page_request query paginated_variables) verbose w with
      | None => None
      | Some (Raise e, w1) => Some (Raise e, w1)
      | Some (Ok response_data, w1) =>
          match unwrap_loop fuel' response_data with
          | None => None
          | Some (Raise e) => Some (Raise e, w1)
          | Some (Ok response_data) =>
              match page_items response_data with
              | Raise e => Some (Raise e, w1)
              | Ok items =>
                  let out_list := out_list ++ items in
                  match has_next_page response_data with
                  | Raise e => Some (Raise e, w1)
                  | Ok false => Some (Ok out_list, w1)
                  | Ok true =>
                      page_loop fuel' query paginated_variables verbose out_list
                        (page_num + 1) w1
                  end
              end
          end
      end
  end.

Definition depaginated_request (fuel : nat) (query : string) (variables : pydict)
    (verbose : bool) (w : World) : option (Result (list json) * World) :=
  let paginated_variables := dict_set "perPage" (JInt MAX_PAGE_SIZE) variables in
  page_loop fuel query paginated_variables verbose [] 1 w.
End Pagination.

(** ** Asynchronous iteration: [async_any] *)

(** An asynchronous iterator is a state with its [__anext__]: [Some (Some a,
    s')] hands out [a], [Some (None, s')] is [StopAsyncIteration], [None] is
    an [__anext__] that never returns. *)
Abbreviation AsyncNext St A := (St → option (option A * St)).

(** The generator expression [(f(x) async for x in source)]. *)
Definition async_genexpr {St A B} (f : A → B) (source : AsyncNext St A) : AsyncNext St B :=
  λ s,
    match source s with
    | None => None
    | Some (None, s') => Some (None, s')
    | Some (Some a, s') => Some (Some (f a), s')
    end.

(** [async_any]; the iterator is returned in the state the call leaves it. *)
Fixpoint async_any {St} (anext : AsyncNext St bool) (fuel : nat) (bool_async_iterable : St)
    : option (bool * St) :=
  match fuel with
  | O => None
  | S fuel' =>
      match anext bool_async_iterable with
      | None => None
      | Some (None, it) => Some (false, it)
      | Some (Some thing, it) =>
          if thing then Some (true, it) else async_any anext fuel' it
      end
  end.

(** An iterator over a list, one element for each [__anext__]. *)
Definition list_anext {A} : AsyncNext (list A) A :=
  λ l, match l with [] => Some (None, []) | a :: l' => Some (Some a, l') end.

(** ** Relation graph walker: [get_related_media] *)

Record Title : Type := { english : option string; romaji : string }.

Record Tag : Type := { name : string }.

Record Media : Type := {
  id : Z;
  title : Title;
  type : string;
  format : string;
  tags : list Tag
}.

Record Relation : Type := { relationType : string; node : Media }.

Definition CHAINED_RELATION_TYPES : list string :=
  ["SEQUEL"; "PREQUEL"; "SOURCE"; "ALTERNATIVE"].

(** The condition of lines 127-128, under which the node is not queued. *)
Definition not_chained (relation : Relation) : bool :=
  negb (existsb (String.eqb (relationType relation)) CHAINED_RELATION_TYPES)
  || existsb (λ tag, String.eqb (name tag) "Crossover") (tags (node relation)).

(** [set.pop()] removes an arbitrary element: the one at position [choice]
    (modulo the size) of the set's elements. *)
Definition set_pop (choice : nat) (s : gset Z) : option (Z * gset Z) :=
  let l := elements s in
  match l !! (choice mod length l)%nat with
  | Some x => Some (x, s ∖ {[x]})
  | None => None
  end.

(** Where the generator stands. *)
Inductive Pc : Type :=
  | AtWhile                                        (* line 114 *)
  | AtFor (relations : list Relation)              (* line 118, what is left *)
  | AtYield (relation : Relation) (relations : list Relation)
                                                   (* suspended at line 124 *)
  | AtEnd.

Record Walker : Type := {
  show_id : Z;
  queue : gset Z;
  related_show_ids : gset Z;
  pc : Pc;
  pops : nat                (* how many times [queue.pop()] has run *)
}.

Inductive Event : Type :=
  | Fetched (cur_show_id : Z)     (* the relation query of line 116 *)
  | Yielded (show : Media).       (* line 124 *)

Definition goto (p : Pc) (g : Walker) : Walker :=
  {| show_id := show_id g; queue := queue g;
     related_show_ids := related_show_ids g; pc := p; pops := pops g |}.

(** Lines 127-131, then the next relation. *)
Definition chain (relation : Relation) (relations : list Relation) (g : Walker) : Walker :=
  if not_chained relation then goto (AtFor relations) g
  else
    {| show_id := show_id g; queue := queue g ∪ {[id (node relation)]};
       related_show_ids := related_show_ids g; pc := AtFor relations; pops := pops g |}.

(** The frame of a call: lines 112-113 (they run on the first [__anext__]
    and nothing is observable before line 114). *)
Definition get_related_media (show_id : Z) : Walker :=
  {| show_id := show_id; queue := {[show_id]}; related_show_ids := {[show_id]};
     pc := AtWhile; pops := 0 |}.

Section Walk.
(** [graph i]: the edges the relation query returns for media [i], that is
    [(await safe_post_request(...))['Media']['relations']['edges']]. *)
Variable graph : Z → list Relation.
(** The element the [n]-th [queue.pop()] removes. *)
Variable pop_choice : nat → nat.

Definition step (g : Walker) : option Event * Walker :=
  match pc g with
  | AtWhile =>
      match set_pop (pop_choice (pops g)) (queue g) with
      | None => (None, goto AtEnd g)
      | Some (cur_show_id, queue') =>
          (Some (Fetched cur_show_id),
           {| show_id := show_id g; queue := queue';
              related_show_ids := related_show_ids g;
              pc := AtFor (graph cur_show_id); pops := S (pops g) |})
      end
  | AtFor [] => (None, goto AtWhile g)
  | AtFor (relation :: relations) =>
      let show := node relation in
      if bool_decide (id show ∈ related_show_ids g) then (None, goto (AtFor relations) g)
      else
        let g1 :=
          {| show_id := show_id g; queue := queue g;
             related_show_ids := related_show_ids g ∪ {[id show]};
             pc := pc g; pops := pops g |} in
        if bool_decide (id show ≠ show_id g)
        then (Some (Yielded show), goto (AtYield relation relations) g1)
        else (None, chain relation relations g1)
  | AtYield relation relations => (None, chain relation relations g)
  | AtEnd => (None, g)
  end.

(** The first [n] steps of a walk: what happened, and where it stands. *)
Fixpoint run (n : nat) (g : Walker) : list Event * Walker :=
  match n with
  | O => ([], g)
  | S n' =>
      let '(ev, g1) := step g in
      let '(evs, g2) := run n' g1 in
      (match ev with Some e => e :: evs | None => evs end, g2)
  end.

(** [__anext__]: run to the next [yield] or to the end. *)
Fixpoint anext (fuel : nat) (g : Walker) : option (option Media * Walker) :=
  match pc g with
  | AtEnd => Some (None, g)
  | _ =>
      match fuel with
      | O => None
      | S fuel' =>
          match step g with
          | (Some (Yielded show), g1) => Some (Some show, g1)
          | (_, g1) => anext fuel' g1
          end
      end
  end.
End Walk.

Definition yields (evs : list Event) : list Media :=
  omap (λ e, match e with Yielded m => Some m | Fetched _ => None end) evs.

Definition fetches (evs : list Event) : list Z :=
  omap (λ e, match e with Fetched i => Some i | Yielded _ => None end) evs.

(** ** The entry point: [main] *)

Definition query_user_id : string := "
query ($username: String) {
    User (name: $username) {
        id
    }
}".

Definition query_user_media : string := "
query ($userId: Int, $status: MediaListStatus, $page: Int, $perPage: Int) {
    Page (page: $page, perPage: $perPage) {
        pageInfo {
            hasNextPage
        }
        # Note that a MediaList object is actually a single list entry, hence the need for pagination
        # IMPORTANT: Always include MEDIA_ID in the sort, as the anilist API is bugged - if ties are possible,
        #            pagination can omit some results while duplicating others at the page borders.
        mediaList(userId: $userId, status: $status, sort: [SCORE_DESC, MEDIA_ID]) {
            media {
                id
                title {
                    english
                    romaji
                }
            }
        }
    }
}".

(** The elements of a Python [set]: hashable values up to [==], under which
    [True] is [1] and [False] is [0]. *)
Inductive pykey : Type :=
  | KNone
  | KInt (z : Z)
  | KStr (s : string).

#[global] Instance pykey_eq_dec : EqDecision pykey.
Proof. solve_decision. Defined.

#[global] Instance pykey_countable : Countable pykey.
Proof.
  refine (inj_countable'
    (λ k, match k with KNone => inl () | KInt z => inr (inl z) | KStr s => inr (inr s) end)
    (λ x, match x with inl _ => KNone | inr (inl z) => KInt z | inr (inr s) => KStr s end) _).
  by intros [].
Defined.

(** [hash(v)] raises TypeError on lists and dicts. *)
Definition py_hashable (v : json) : Result pykey :=
  match v with
  | JNull => Ok KNone
  | JBool b => Ok (KInt (if b then 1 else 0))
  | JInt z => Ok (KInt z)
  | JStr s => Ok (KStr s)
  | JList _ | JObj _ => Raise TypeError
  end.

(** [set(media['id'] for media in media_list)]. *)
Definition media_id_set (media_list : list json) : Result (gset pykey) :=
  keys ← mapM (λ media, v ← item media "id"; py_hashable v) media_list;
  mret (list_to_set keys).

Record Args : Type := { username : string; planning : bool; completed : bool }.

Definition STATUSES : list string := ["COMPLETED"; "PLANNING"; "CURRENT"].

Section Main.
Variable net : Network.

Definition get_user_id_by_name (fuel : nat) (username : string) (w : World)
    : option (Result json * World) :=
  let post_json :=
    JObj [("query", JStr query_user_id);
          ("variables", JObj [("username", JStr username)])] in
  match safe_post_request net fuel post_json true w with
  | None => None
  | Some (r, w') => Some (data ← r; user ← item data "User"; item user "id", w')
  end.

Definition get_user_media (fuel : nat) (user_id : json) (status : string) (w : World)
    : option (Result (list json) * World) :=
  match depaginated_request net fuel query_user_media
          [("userId", user_id); ("status", JStr status)] true w with
  | None => None
  | Some (r, w') =>
      Some (entries ← r; mapM (λ list_entry, item list_entry "media") entries, w')
  end.

(** Lines 150-151: the dict comprehension, one status after the other. *)
Fixpoint user_media_ids_by_status (fuel : nat) (user_id : json) (statuses : list string)
    (w : World) : option (Result (list (string * gset pykey)) * World) :=
  match statuses with
  | [] => Some (Ok [], w)
  | status :: statuses' =>
      match get_user_media fuel user_id status w with
      | None => None
      | Some (Raise e, w1) => Some (Raise e, w1)
      | Some (Ok media_list, w1) =>
          match media_id_set media_list with
          | Raise e => Some (Raise e, w1)
          | Ok ids =>
              match user_media_ids_by_status fuel user_id statuses' w1 with
              | None => None
              | Some (r, w2) => Some (rest ← r; mret ((status, ids) :: rest), w2)
              end
          end
      end
  end.

(** Lines 147-152 of [main]: the set [user_media_ids]. *)
Definition main_user_media_ids (fuel : nat) (args : Args) (w : World)
    : option (Result (gset pykey) * World) :=
  match get_user_id_by_name fuel (username args) w with
  | None => None
  | Some (Raise e, w1) => Some (Raise e, w1)
  | Some (Ok user_id, w1) =>
      match user_media_ids_by_status fuel user_id STATUSES w1 with
      | None => None
      | Some (r, w2) => Some (by_status ← r; mret (⋃ (map snd by_status)), w2)
      end
  end.
End Main.

Section Matcher.
Variable graph : Z → list Relation.
Variable pop_choice : nat → nat.

(** Line 169: [async_any(related_media['id'] in user_media_ids async for
    related_media in get_related_media(show['id']))], with the walker in the
    state the call leaves it. *)
Definition has_upcoming_relation (fuel : nat) (show_id : Z) (user_media_ids : gset pykey)
    : option (bool * Walker) :=
  async_any
    (async_genexpr (λ related_media, bool_decide (KInt (id related_media) ∈ user_media_ids))
       (anext graph pop_choice fuel))
    fuel (get_related_media show_id).
End Matcher.

(** Line 170: [show['title']['english'] or show['title']['romaji']], the
    value passed to [print]. *)
Definition printed_title (show : json) : Result json :=
  t ← item show "title";
  e ← item t "english";
  if py_truthy e then mret e
  else (t' ← item show "title"; item t' "romaji").

(** ** The rest of [utils.py] *)

Definition dict_keys (d : pydict) : list string := map fst d.

(** [dict_intersection]: the keys of the first dict that all the others
    have, in the order of the first. *)
Definition dict_intersection (dicts : list pydict) : list string :=
  match dicts with
  | [] => []
  | first :: others => filter (λ k, forallb (dict_has k) others) (dict_keys first)
  end.

(** [async_all]; the iterator is returned in the state the call leaves it. *)
Fixpoint async_all {St} (anext : AsyncNext St bool) (fuel : nat) (bool_async_iterable : St)
    : option (bool * St) :=
  match fuel with
  | O => None
  | S fuel' =>
      match anext bool_async_iterable with
      | None => None
      | Some (None, it) => Some (true, it)
      | Some (Some thing, it) =>
          if negb thing then Some (false, it) else async_all anext fuel' it
      end
  end.

(** ** The rest of [upcoming_sequels.py] *)

Definition query_season_shows : string := "
query ($season: MediaSeason, $seasonYear: Int, $page: Int, $perPage: Int) {
    Page (page: $page, perPage: $perPage) {
        pageInfo {
            hasNextPage
        }
        media(season: $season, seasonYear: $seasonYear, type: ANIME, format_in: [TV, MOVIE], sort: POPULARITY_DESC) {
            id
            title {
                english
                romaji
            }
        }
    }
}".

Definition get_season_shows (net : Network) (fuel : nat) (season : string) (season_year : Z)
    (w : World) : option (Result (list json) * World) :=
  depaginated_request net fuel query_season_shows
    [("season", JStr season); ("seasonYear", JInt season_year)] true w.

Definition SEASONS : list string := ["WINTER"; "SPRING"; "SUMMER"; "FALL"].

(** [l[i]] on a list of strings. *)
Definition list_getitem (l : list string) (i : Z) : Result string :=
  match seq_index i (Z.of_nat (length l)) with
  | Some n => match nth_error l n with Some s => Ok s | None => Raise IndexError end
  | None => Raise IndexError
  end.

(** Lines 157-159 of [main]: the season and the year of the [i]-th search,
    for the current year and month. *)
Definition searched_season (cur_year cur_month i : Z) : Result (string * Z) :=
  let season_idx := cur_month / 3 + i in
  season ← list_getitem SEASONS (season_idx mod 4);
  mret (season, cur_year + season_idx / 4).

(** *** Fuzzy dates *)

(** A naive [datetime]: a calendar date and the time of day, in microseconds
    since midnight. *)
Module datetime.
Record t : Type := { year : Z; month : Z; day : Z; time_of_day : Z }.

Definition is_leap (y : Z) : bool :=
  (y mod 4 =? 0) && (negb (y mod 100 =? 0) || (y mod 400 =? 0)).

Definition days_in_month (y m : Z) : Z :=
  if m =? 2 then (if is_leap y then 29 else 28)
  else if (m =? 4) || (m =? 6) || (m =? 9) || (m =? 11) then 30
  else 31.

(** [datetime(year=y, month=m, day=d)]: ValueError outside the calendar. *)
Definition make (y m d : Z) : Result t :=
  if (1 <=? y) && (y <=? 9999) && (1 <=? m) && (m <=? 12)
     && (1 <=? d) && (d <=? days_in_month y m)
  then Ok {| year := y; month := m; day := d; time_of_day := 0 |}
  else Raise ValueError.

(** [a >= b]. *)
Definition geb (a b : t) : bool :=
  (year b <? year a)
  || ((year a =? year b)
      && ((month b <? month a)
          || ((month a =? month b)
              && ((day b <? day a)
                  || ((day a =? day b) && (time_of_day b <=? time_of_day a)))))).
End datetime.

(** A FuzzyDate of the API: each field an integer or [None]. *)
Record FuzzyDate : Type := { year : option Z; month : option Z; day : option Z }.

Definition fuzzy_date_greater_or_equal_to (fuzzy_date : FuzzyDate) (date : datetime.t)
    : Result bool :=
  match day fuzzy_date with
  | Some d =>
      match year fuzzy_date, month fuzzy_date with
      | Some y, Some m =>
          dt ← datetime.make y m d;
          mret (datetime.geb dt date)
      | _, _ => Raise TypeError
      end
  | None =>
      match month fuzzy_date with
      | Some m =>
          match year fuzzy_date with
          | Some y =>
              mret ((datetime.year date <? y)
                    || ((y =? datetime.year date) && (datetime.month date <=? m)))
          | None => Raise TypeError
          end
      | None =>
          match year fuzzy_date with
          | Some y => mret (datetime.year date <=? y)
          | None => mret true
          end
      end
  end.

(** ** Notions used in the statements *)

(** The number of pages of [n] items, [P] to a page: [ceil(n / P)]. *)
Definition ceil_div (n P : Z) : Z := (n + P - 1) / P.

(** The wait that follows a response (lines 38-50). *)
Definition wait_after (r : Response) : Delay :=
  match retry_after r with
  | Some (RetrySeconds n) => Seconds (n + 1)
  | _ => TenthOfSecond
  end.

(** The [Retry-After] header, when present, holds integer seconds. *)
Definition integer_retry_after (r : Response) : Prop :=
  match retry_after r with Some (RetryText _) => False | _ => True end.

(** The shapes that violate the driver's contract. *)
Inductive shape_violation : json → Prop :=
  | empty_object : shape_violation (JObj [])
  | several_fields kvs :
      dict_has "pageInfo" kvs = false → (1 < length kvs)%nat →
      shape_violation (JObj kvs)
  | not_two_fields kvs :
      dict_has "pageInfo" kvs = true → length kvs ≠ 2%nat →
      shape_violation (JObj kvs).

(** [unwraps_to n d d']: [d'] is what [n] unwrappings of single-key objects
    without [pageInfo] reach from [d]. *)
Inductive unwraps_to : nat → json → json → Prop :=
  | unwraps_here d : unwraps_to 0 d d
  | unwraps_inner n k v d' :
      k ≠ "pageInfo" → unwraps_to n v d' → unwraps_to (S n) (JObj [(k, v)]) d'.

(** The messages of the driver's assertions. *)
Definition assertion_message (msg : string) : Prop :=
  msg = NO_PAGE_INFO ∨ msg = MULTIPLE_FIELDS.

(** The world after one successful request that carried no [Retry-After]. *)
Definition after_request (post_json : json) (w : World) : World :=
  count_query (do_sleep TenthOfSecond (do_post post_json w)).

(** The pages the driver requests for [n] items: at least the first. *)
Definition pages_requested (n : Z) : Z := Z.max 1 (ceil_div n MAX_PAGE_SIZE).

(** The ids still to be expanded: the queue, and the node of a pending
    [yield] that line 131 will queue. *)
Definition pending (g : Walker) : gset Z :=
  queue g ∪
  match pc g with
  | AtYield relation _ => if not_chained relation then ∅ else {[id (node relation)]}
  | _ => ∅
  end.

(** What holds of the frame throughout a walk. *)
Definition walker_inv (g : Walker) : Prop :=
  show_id g ∈ related_show_ids g
  ∧ queue g ⊆ related_show_ids g
  ∧ match pc g with
    | AtYield relation _ =>
        id (node relation) ∈ related_show_ids g ∧ id (node relation) ∉ queue g
    | _ => True
    end.

(** The relations the generator still holds: the one suspended at [yield]
    and those the [for] loop has not reached. *)
Definition pc_relations (g : Walker) : list Relation :=
  match pc g with
  | AtFor relations => relations
  | AtYield relation relations => relation :: relations
  | AtWhile | AtEnd => []
  end.

(** [x] is the node of a chained relation of a media fetched in [evs]. *)
Definition chained_from (graph : Z → list Relation) (evs : list Event) (x : Z) : Prop :=
  ∃ y relation,
    y ∈ fetches evs ∧ relation ∈ graph y
    ∧ id (node relation) = x ∧ not_chained relation = false.

(** [x] may be fetched: it is the root or the node of a chained relation. *)
Definition justified (graph : Z → list Relation) (root : Z) (evs : list Event) (x : Z) : Prop :=
  x = root ∨ chained_from graph evs x.

(** What the events of a walk so far account for. *)
Definition history_inv (graph : Z → list Relation) (root : Z)
    (evs : list Event) (g : Walker) : Prop :=
  (∀ x, x ∈ pending g → justified graph root evs x)
  ∧ (∀ relation, relation ∈ pc_relations g →
       ∃ y, y ∈ fetches evs ∧ relation ∈ graph y)
  ∧ (∀ x, x ∈ fetches evs → justified graph root evs x).

(** The measure: what is left to visit (a pending [yield] counting for
    one step more), then the queue, then the rest of the [for] loop. *)
Definition to_visit (nodes : gset Z) (g : Walker) : nat :=
  2 * size (nodes ∖ related_show_ids g)
  + match pc g with AtYield _ _ => 1 | _ => 0 end.

Definition to_iterate (g : Walker) : nat :=
  match pc g with AtFor relations => S (length relations) | _ => 0%nat end.

Definition smaller (nodes : gset Z) (g' g : Walker) : Prop :=
  (to_visit nodes g' < to_visit nodes g)%nat
  ∨ (to_visit nodes g' = to_visit nodes g
     ∧ ((size (queue g') < size (queue g))%nat
        ∨ (size (queue g') = size (queue g) ∧ (to_iterate g' < to_iterate g)%nat))).

Definition relations_in_nodes (nodes : gset Z) (g : Walker) : Prop :=
  ∀ relation, relation ∈ pc_relations g → id (node relation) ∈ nodes.

(** [pulls anext k s]: [k] calls of [__anext__] in a row, each handing out an
    item; the items, and the iterator after the last call. *)
Fixpoint pulls {St A} (anext : AsyncNext St A) (k : nat) (s : St) : option (list A * St) :=
  match k with
  | O => Some ([], s)
  | S k' =>
      match anext s with
      | Some (Some a, s1) =>
          match pulls anext k' s1 with
          | Some (l, s2) => Some (a :: l, s2)
          | None => None
          end
      | _ => None
      end
  end.

(** ** Test doubles *)

(** An integer variable of a posted request. *)
Definition int_variable (var : string) (post_json : json) : option Z :=
  match (vars ← item post_json "variables"; item vars var) with
  | Ok (JInt z) => Some z
  | _ => None
  end.

(** A paginated source of [items]: page [page] of size [perPage] holds the
    items from position [(page - 1) * perPage] on, in order, and
    [hasNextPage] tells whether items remain after it.  A request without
    both variables is answered 400. *)
Definition paged_source (items : list json) : Network :=
  λ _ post_json,
    match int_variable "page" post_json, int_variable "perPage" post_json with
    | Some page, Some per_page =>
        if (1 <=? page) && (1 <=? per_page) then
          let page_list := take (Z.to_nat per_page) (drop (Z.to_nat ((page - 1) * per_page)) items) in
          let has_next := page * per_page <? Z.of_nat (length items) in
          Responds {| status_code := 200; retry_after := None;
                      body := Some (JObj [("data", JObj [("Page",
                                JObj [("pageInfo", JObj [("hasNextPage", JBool has_next)]);
                                      ("media", JList page_list)])])]) |}
        else Responds {| status_code := 400; retry_after := None; body := None |}
    | _, _ => Responds {| status_code := 400; retry_after := None; body := None |}
    end.

(** The data of page [page] of the paginated source. *)
Definition page_reply (items : list json) (page : Z) : json :=
  JObj [("Page",
         JObj [("pageInfo",
                JObj [("hasNextPage", JBool (page * MAX_PAGE_SIZE <? Z.of_nat (length items)))]);
               ("media",
                JList (take (Z.to_nat MAX_PAGE_SIZE)
                         (drop (Z.to_nat ((page - 1) * MAX_PAGE_SIZE)) items)))])].

(** A server that answers the first request 429 with [Retry-After: 2] and
    every later one 200 with the payload [data]. *)
Definition rate_limited_reply : Response :=
  {| status_code := 429; retry_after := Some (RetrySeconds 2); body := None |}.

Definition success_reply (data : json) : Response :=
  {| status_code := 200; retry_after := None; body := Some (JObj [("data", data)]) |}.

Definition limited_once (data : json) : Network :=
  λ n _, match n with
         | O => Responds rate_limited_reply
         | S _ => Responds (success_reply data)
         end.

(** The answer to a query for a media that does not exist. *)
Definition not_found_reply : Response :=
  {| status_code := 404; retry_after := None;
     body := Some (JObj [("errors", JList [JObj [("message", JStr "Not Found."); ("status", JInt 404)]]);
                         ("data", JObj [("Media", JNull)])]) |}.

(** A media with nothing but its id, and a relation to it. *)
Definition plain_media (i : Z) : Media :=
  {| id := i; title := {| english := None; romaji := "" |};
     type := "ANIME"; format := "TV"; tags := [] |}.

Definition edge (relation_type : string) (i : Z) : Relation :=
  {| relationType := relation_type; node := plain_media i |}.

(** The cycle A → B → A, with A = 1 the root and B = 2. *)
Definition cycle_graph (i : Z) : list Relation :=
  if i =? 1 then [edge "SEQUEL" 2]
  else if i =? 2 then [edge "PREQUEL" 1]
  else [].

(** A side story does not lead on; nor does a crossover sequel. *)
Definition side_story_graph (i : Z) : list Relation :=
  if i =? 1 then [edge "SIDE_STORY" 2]
  else if i =? 2 then [edge "SEQUEL" 3]
  else [].

Definition crossover_graph (i : Z) : list Relation :=
  if i =? 1 then
    [{| relationType := "SEQUEL";
        node := {| id := 2; title := {| english := None; romaji := "" |};
                   type := "ANIME"; format := "TV";
                   tags := [{| name := "Comedy" |}; {| name := "Crossover" |}] |} |}]
  else if i =? 2 then [edge "SEQUEL" 3]
  else [].

(** A graph on which the walk from 0 yields 1, 42 and 999 in that order. *)
Definition three_relations_graph (i : Z) : list Relation :=
  if i =? 0 then [edge "SEQUEL" 1; edge "SEQUEL" 42; edge "SEQUEL" 999] else [].

(** A server with the user's lists: the user lookup answers the user id, a
    list query answers the pages of the list of its [status]. *)
Definition anilist_lists (user_id : Z) (lists : string → list json) : Network :=
  λ n post_json,
    match (vars ← item post_json "variables"; item vars "status") with
    | Ok (JStr status) => paged_source (lists status) n post_json
    | _ => Responds (success_reply (JObj [("User", JObj [("id", JInt user_id)])]))
    end.

(** A list entry for media [i], and the lists of the scenario: 10 completed,
    11 and 10 current, nothing planned. *)
Definition list_entry_of (i : Z) : json :=
  JObj [("media", JObj [("id", JInt i);
                        ("title", JObj [("english", JNull); ("romaji", JStr "Title")])])].

Definition scenario_lists (status : string) : list json :=
  if String.eqb status "COMPLETED" then [list_entry_of 10]
  else if String.eqb status "CURRENT" then [list_entry_of 11; list_entry_of 10]
  else [].

(** A seasonal show with the given English title. *)
Definition show_of (english_title : json) : json :=
  JObj [("id", JInt 20);
        ("title", JObj [("english", english_title); ("romaji", JStr "Sousou no Frieren")])].

(** An outcome of [requests.post] after which the loop posts again: a 429
    answer, or the exception a browser raises in place of one. *)
Definition retried (o : HttpOutcome) : Prop :=
  match o with
  | Throws exc_type => exc_type = PYODIDE_EXCEPTION
  | Responds r => status_code r = 429 ∧ integer_retry_after r
  end.

(** The wait after a retried outcome, and what is printed around it. *)
Definition wait_for (o : HttpOutcome) : Delay :=
  match o with
  | Throws _ => Seconds 61
  | Responds r => wait_after r
  end.

Definition printed_around (msg : string) : list Printed :=
  [PStr msg ""; PStr (CR ++ spaces (String.length msg))%string CR].

Definition printed_for (verbose : bool) (o : HttpOutcome) : list Printed :=
  match o with
  | Throws _ => printed_around (retry_msg 61)
  | Responds r =>
      match retry_after r with
      | Some (RetrySeconds n) => if verbose then printed_around (retry_msg (n + 1)) else []
      | _ => []
      end
  end.

(** Two worlds that differ at most in what was printed. *)
Definition same_but_stdout (w1 w2 : World) : Prop :=
  sent w1 = sent w2 ∧ total_queries w1 = total_queries w2 ∧ slept w1 = slept w2.

(** Two outcomes of a call with the same result, in worlds that differ at
    most in what was printed. *)
Definition same_outcome {A} (a b : option (Result A * World)) : Prop :=
  option_Forall2 (λ x y, x.1 = y.1 ∧ same_but_stdout x.2 y.2) a b.



(** The variables of the request for page [page]. *)
Definition page_variables (variables : pydict) (page : Z) : pydict :=
  dict_set "page" (JInt page) (dict_set "perPage" (JInt MAX_PAGE_SIZE) variables).

(** The relations the [for] loop has still to look at. *)
Definition for_rest (g : Walker) : list Relation :=
  match pc g with
  | AtFor relations => relations
  | AtYield _ relations => relations
  | AtWhile | AtEnd => []
  end.

(** What has been visited so far: the relations of every fetched media have
    been looked at or are still to come in the [for] loop; the visited ids are
    the root and the yielded ones; every yielded node is the node of a relation
    of a fetched media. *)
Definition visit_inv (graph : Z → list Relation) (root : Z)
    (evs : list Event) (g : Walker) : Prop :=
  (∀ y r, y ∈ fetches evs → r ∈ graph y →
          id (node r) ∈ related_show_ids g ∨ r ∈ for_rest g)
  ∧ (∀ x, x ∈ related_show_ids g → x = root ∨ x ∈ id <$> yields evs)
  ∧ (∀ m, m ∈ yields evs → ∃ y r, y ∈ fetches evs ∧ r ∈ graph y ∧ node r = m).

(** A graph on which what is found depends on the order of [queue.pop()]:
    4 is a side story of 2 and a sequel of 3, and 5 is a sequel of 4. *)
Definition diamond_graph (i : Z) : list Relation :=
  if i =? 1 then [edge "SEQUEL" 2; edge "SEQUEL" 3]
  else if i =? 2 then [edge "SIDE_STORY" 4]
  else if i =? 3 then [edge "SEQUEL" 4]
  else if i =? 4 then [edge "SEQUEL" 5]
  else [].

(** The month after [(y, m)], and the quarter of the year a month is in. *)
Definition next_month (y m : Z) : Z * Z := if m =? 12 then (y + 1, 1) else (y, m + 1).

Definition quarter_of_month (m : Z) : Z := (m - 1) / 3.

(** A list entry holding [media]. *)
Definition entry_of (media : json) : json := JObj [("media", media)].

(** The set element for a media: [hash(media['id'])] done. *)
Definition hashed_id (media : json) : Result pykey :=
  v ← item media "id"; py_hashable v.

(** A server that answers 429 once and then drops the connection. *)
Definition CONNECTION_ERROR : string := "<class 'requests.exceptions.ConnectionError'>".

Definition dropping_net : Network :=
  λ n _, match n with
         | O => Responds rate_limited_reply
         | S _ => Throws CONNECTION_ERROR
         end.

(** A browser that hides the first two answers, then shows a success. *)
Definition browser_net : Network :=
  λ n _, match n with
         | O | 1%nat => Throws PYODIDE_EXCEPTION
         | _ => Responds (success_reply (JInt 7))
         end.

(** A success whose [Retry-After] header is a date. *)
Definition dated_reply : Response :=
  {| status_code := 200; retry_after := Some (RetryText "Wed, 21 Oct 2015 07:28:00 GMT");
     body := Some (JObj [("data", JInt 7)]) |}.




(** The answer negated, the iterator as it is. *)
Definition swap_answer {St} (r : bool * St) : bool * St := (negb r.1, r.2).

(** * Properties *)

(** ** Request transport *)

Lemma sent_when b f w : (∀ w, sent (f w) = sent w) → sent (when b f w) = sent w.
Proof. intros H. destruct b; simpl; auto. Qed.

Lemma total_queries_when b f w :
  (∀ w, total_queries (f w) = total_queries w) →
  total_queries (when b f w) = total_queries w.
Proof. intros H. destruct b; simpl; auto. Qed.

Lemma slept_when b f w : (∀ w, slept (f w) = slept w) → slept (when b f w) = slept w.
Proof. intros H. destruct b; simpl; auto. Qed.

Section TransportFacts.
Variable net : Network.

Lemma post_loop_exit fuel post_json verbose response r w :
  loop_exit response = Some r →
  post_loop net fuel post_json verbose response w = Some (Ok r, w).
Proof. intros H. destruct fuel; simpl; rewrite H; reflexivity. Qed.

(** One turn of the loop on an answered request. *)
Lemma post_loop_responds fuel post_json verbose response r w :
  loop_exit response = None →
  net (length (sent w)) post_json = Responds r →
  integer_retry_after r →
  ∃ w1, post_loop net (S fuel) post_json verbose response w
          = post_loop net fuel post_json verbose (Some r) w1
        ∧ sent w1 = sent w ++ [post_json]
        ∧ total_queries w1 = total_queries w
        ∧ slept w1 = slept w ++ [wait_after r].
Proof.
  intros Hexit Hnet Hint. simpl. rewrite Hexit, Hnet.
  unfold integer_retry_after, wait_after in *.
  destruct (retry_after r) as [[n|t]|]; [|done|].
  - eexists. split; [reflexivity|].
    rewrite !sent_when, !total_queries_when, !slept_when by done. simpl.
    rewrite !sent_when, !total_queries_when, !slept_when by done. simpl.
    done.
  - eexists. split; [reflexivity|]. done.
Qed.

(** A run of rate-limited answers [rs] followed by the answer [r]: the loop
    posts once for each, waits after each, and leaves with [r]. *)
Lemma post_loop_retries post_json verbose r rs :
  status_code r ≠ 429 → integer_retry_after r →
  Forall (λ ri, status_code ri = 429 ∧ integer_retry_after ri) rs →
  ∀ w response fuel,
    loop_exit response = None →
    (∀ i ri, (rs ++ [r]) !! i = Some ri →
             net (length (sent w) + i)%nat post_json = Responds ri) →
    (length rs < fuel)%nat →
    ∃ w1, post_loop net fuel post_json verbose response w = Some (Ok r, w1)
          ∧ sent w1 = sent w ++ repeat post_json (S (length rs))
          ∧ total_queries w1 = total_queries w
          ∧ slept w1 = slept w ++ map wait_after (rs ++ [r]).
Proof.
  intros Hr Hint Hrs. induction Hrs as [|ri rs [H429 Hri] _ IH];
    intros w response fuel Hexit Hnet Hfuel.
  - destruct fuel as [|fuel]; [simpl in Hfuel; lia|].
    pose proof (Hnet 0%nat r eq_refl) as H0. rewrite Nat.add_0_r in H0.
    destruct (post_loop_responds fuel post_json verbose response r w Hexit H0 Hint)
      as (w1 & Hstep & Hsent & Htq & Hslept).
    exists w1. rewrite Hstep. split.
    { apply post_loop_exit. simpl. by destruct (Z.eqb_spec (status_code r) 429). }
    done.
  - destruct fuel as [|fuel]; [simpl in Hfuel; lia|]. simpl in Hfuel.
    pose proof (Hnet 0%nat ri eq_refl) as H0. rewrite Nat.add_0_r in H0.
    destruct (post_loop_responds fuel post_json verbose response ri w Hexit H0 Hri)
      as (w1 & Hstep & Hsent & Htq & Hslept).
    destruct (IH w1 (Some ri) fuel) as (w2 & Hloop & Hsent2 & Htq2 & Hslept2).
    { simpl. by rewrite H429. }
    { intros i rj Hi. rewrite Hsent, length_app. simpl.
      replace (length (sent w) + 1 + i)%nat with (length (sent w) + S i)%nat by lia.
      by apply Hnet. }
    { lia. }
    exists w2. rewrite Hstep. split; [done|].
    rewrite Hsent2, Htq2, Hslept2, Hsent, Htq, Hslept. simpl.
    rewrite <- !app_assoc. done.
Qed.

Lemma loop_exit_not_429 response r :
  loop_exit response = Some r → status_code r ≠ 429.
Proof.
  destruct response as [r0|]; simpl; [|done].
  destruct (Z.eqb_spec (status_code r0) 429); [done|]. by intros [= <-].
Qed.

(** The loop is left only with a response that is not a 429. *)
Lemma post_loop_ok_not_429 fuel post_json verbose :
  ∀ response w r w1,
    post_loop net fuel post_json verbose response w = Some (Ok r, w1) →
    status_code r ≠ 429.
Proof.
  induction fuel as [|fuel IH]; intros response w r w1; simpl;
    destruct (loop_exit response) as [r0|] eqn:Hexit;
    try (intros [= <- _]; by eapply loop_exit_not_429); try done.
  destruct (net (length (sent w)) post_json) as [r1|exc_type].
  - destruct (retry_after r1) as [[n|t]|]; [apply IH|done|apply IH].
  - destruct (String.eqb exc_type PYODIDE_EXCEPTION); [apply IH|done].
Qed.

Lemma finish_effects r w :
  sent (finish r w).2 = sent w
  ∧ slept (finish r w).2 = slept w
  ∧ total_queries (finish r w).2 = total_queries w + 1.
Proof.
  unfold finish. destruct (negb (response_ok r)); [|done].
  destruct (_ ≫= _) as [[|]|]; [|done|done].
  destruct (_ ≫= _); done.
Qed.
End TransportFacts.

(** C5. Whatever the number of rate-limited (429) answers [rs], carrying a
    [Retry-After] header or not, that precede the first answer [r] that is not
    a 429: [safe_post_request] posts the same request once for each answer,
    waits [Retry-After + 1] seconds after an answer carrying the header, leaves
    the query counter untouched through all the 429s and increments it exactly
    once, on [r]. *)
Theorem safe_post_request_retries_and_counts_once
    (net : Network) post_json verbose w rs r :
  Forall (λ ri, status_code ri = 429 ∧ integer_retry_after ri) rs →
  status_code r ≠ 429 → integer_retry_after r →
  (∀ i ri, (rs ++ [r]) !! i = Some ri →
           net (length (sent w) + i)%nat post_json = Responds ri) →
  ∀ fuel, (length rs < fuel)%nat →
    ∃ w1 res w',
      post_loop net fuel post_json verbose None w = Some (Ok r, w1)
      ∧ total_queries w1 = total_queries w
      ∧ safe_post_request net fuel post_json verbose w = Some (res, w')
      ∧ (res, w') = finish r w1
      ∧ sent w' = sent w ++ repeat post_json (S (length rs))
      ∧ slept w' = slept w ++ map wait_after (rs ++ [r])
      ∧ total_queries w' = total_queries w + 1.
Proof.
  intros Hrs Hr Hint Hnet fuel Hfuel.
  destruct (post_loop_retries net post_json verbose r rs Hr Hint Hrs w None fuel)
    as (w1 & Hloop & Hsent & Htq & Hslept); [done|done|done|].
  destruct (finish_effects r w1) as (Fsent & Fslept & Ftq).
  exists w1, (finish r w1).1, (finish r w1).2.
  unfold safe_post_request. rewrite Hloop.
  rewrite Fsent, Fslept, Ftq, Hsent, Hslept, Htq.
  by destruct (finish r w1).
Qed.

Lemma safe_post_request_retries_and_counts_once_witness :
  ∃ w1 res w',
    post_loop (limited_once (JInt 7)) 2 JNull true None init_world
      = Some (Ok (success_reply (JInt 7)), w1)
    ∧ total_queries w1 = total_queries init_world
    ∧ safe_post_request (limited_once (JInt 7)) 2 JNull true init_world = Some (res, w')
    ∧ (res, w') = finish (success_reply (JInt 7)) w1
    ∧ sent w' = sent init_world ++ repeat JNull 2
    ∧ slept w' = slept init_world ++ map wait_after ([rate_limited_reply] ++ [success_reply (JInt 7)])
    ∧ total_queries w' = total_queries init_world + 1.
Proof.
  apply (safe_post_request_retries_and_counts_once (limited_once (JInt 7)) JNull true
           init_world [rate_limited_reply] (success_reply (JInt 7))).
  - repeat constructor.
  - simpl. lia.
  - simpl. exact I.
  - intros [|[|i]] ri; simpl; intros [= <-]; reflexivity.
  - simpl. lia.
Defined.

Example limited_once_run :
  safe_post_request (limited_once (JInt 7)) 2 JNull false init_world
  = Some (Ok (JInt 7),
          {| sent := [JNull; JNull]; total_queries := 1; stdout := [];
             slept := [Seconds 3; TenthOfSecond] |}).
Proof. reflexivity. Qed.




(** A 200 answer is returned, whether or not its body has [errors]. *)
Example success_with_errors_run :
  safe_post_request
    (λ _ _, Responds {| status_code := 200; retry_after := None;
                        body := Some (JObj [("errors", JList [JStr "partial"]);
                                            ("data", JInt 1)]) |})
    1 JNull true init_world
  = Some (Ok (JInt 1),
          {| sent := [JNull]; total_queries := 1; stdout := []; slept := [TenthOfSecond] |}).
Proof. reflexivity. Qed.

Example not_found_run :
  safe_post_request (λ _ _, Responds not_found_reply) 1 JNull true init_world
  = Some (Raise (HTTPError 404),
          {| sent := [JNull]; total_queries := 1;
             stdout := [PValue (JList [JObj [("message", JStr "Not Found."); ("status", JInt 404)]])];
             slept := [TenthOfSecond] |}).
Proof. reflexivity. Qed.

(** ** Pagination driver *)

Lemma dict_get_set_eq k v d : dict_get k (dict_set k v d) = Some v.
Proof.
  induction d as [|[k' v'] d IH]; simpl.
  - by rewrite String.eqb_refl.
  - destruct (String.eqb k k') eqn:E; simpl.
    + by rewrite String.eqb_refl.
    + by rewrite E.
Qed.

Lemma dict_get_set_ne k k' v d : k ≠ k' → dict_get k (dict_set k' v d) = dict_get k d.
Proof.
  intros Hne. apply String.eqb_neq in Hne.
  induction d as [|[k0 v0] d IH]; simpl.
  - by rewrite Hne.
  - destruct (String.eqb k' k0) eqn:E; simpl.
    + apply String.eqb_eq in E as <-. by rewrite Hne.
    + by rewrite IH.
Qed.

Lemma dict_set_set k v1 v2 d : dict_set k v2 (dict_set k v1 d) = dict_set k v2 d.
Proof.
  induction d as [|[k0 v0] d IH]; simpl.
  - by rewrite String.eqb_refl.
  - destruct (String.eqb k k0) eqn:E; simpl.
    + by rewrite String.eqb_refl.
    + by rewrite E, IH.
Qed.

Lemma unwrap_loop_single fuel k v :
  k ≠ "pageInfo" → unwrap_loop (S fuel) (JObj [(k, v)]) = unwrap_loop fuel v.
Proof.
  intros Hk. apply not_eq_sym, String.eqb_neq in Hk.
  simpl. unfold dict_has. cbn [dict_get].
  by rewrite Hk, String.eqb_refl.
Qed.

Lemma unwrap_loop_found fuel kvs :
  dict_has "pageInfo" kvs = true → unwrap_loop fuel (JObj kvs) = Some (Ok (JObj kvs)).
Proof. intros H. destruct fuel; simpl; by rewrite H. Qed.

Lemma unwrap_loop_reaches n d d' :
  unwraps_to n d d' → ∀ fuel, (n ≤ fuel)%nat →
  unwrap_loop fuel d = unwrap_loop (fuel - n) d'.
Proof.
  induction 1 as [d|n k v d' Hk _ IH]; intros fuel Hfuel.
  - by rewrite Nat.sub_0_r.
  - destruct fuel as [|fuel]; [lia|].
    rewrite unwrap_loop_single by done. rewrite IH by lia. done.
Qed.

(** What the assertions of lines 87, 88 and 93 do to a violating shape. *)
Lemma shape_violation_asserted d fuel :
  shape_violation d →
  ∃ msg, assertion_message msg
    ∧ (unwrap_loop fuel d = Some (Raise (AssertionError msg))
       ∨ (unwrap_loop fuel d = Some (Ok d)
          ∧ page_items d = Raise (AssertionError msg))).
Proof.
  intros [|kvs Hno Hlen|kvs Hyes Hlen].
  - exists NO_PAGE_INFO. split; [by left|]. left. by destruct fuel.
  - exists MULTIPLE_FIELDS. split; [by right|]. left.
    destruct kvs as [|kv1 [|kv2 kvs]]; [simpl in Hlen; lia..|].
    destruct fuel; simpl; rewrite Hno; by destruct (Pos.of_succ_nat _).
  - exists MULTIPLE_FIELDS. split; [by right|]. right.
    split; [by apply unwrap_loop_found|].
    unfold page_items. simpl.
    destruct (Z.eqb_spec (Z.of_nat (length kvs)) 2); [lia|done].
Qed.

(** C6. Whatever was accumulated and whichever page is being fetched: when the
    data of the page response unwraps to an empty object, to an object of
    several keys without [pageInfo], or to an object with [pageInfo] that does
    not have exactly two keys, the driver raises an AssertionError at once, in
    the world the page's one request left: nothing is requested again and no
    list is returned. *)
Theorem depaginated_request_fails_on_malformed_page
    (net : Network) fuel query paginated_variables verbose out_list page_num w d w1 n d' :
  safe_post_request net fuel
    (page_request query (dict_set "page" (JInt page_num) paginated_variables)) verbose w
    = Some (Ok d, w1) →
  unwraps_to n d d' →
  shape_violation d' →
  (n ≤ fuel)%nat →
  ∃ msg,
    assertion_message msg
    ∧ page_loop net (S fuel) query paginated_variables verbose out_list page_num w
      = Some (Raise (AssertionError msg), w1).
Proof.
  intros Hsend Hunwrap Hbad Hfuel.
  cbn [page_loop]. rewrite Hsend.
  rewrite (unwrap_loop_reaches n d d' Hunwrap fuel Hfuel).
  destruct (shape_violation_asserted d' (fuel - n) Hbad)
    as (msg & Hmsg & [Hu|[Hu Hitems]]); exists msg; (split; [done|]).
  - by rewrite Hu.
  - by rewrite Hu, Hitems.
Qed.

Lemma depaginated_request_fails_on_malformed_page_witness :
  ∃ msg,
    assertion_message msg
    ∧ page_loop (λ _ _, Responds (success_reply (JObj [("Page", JObj [])]))) 2
        "query" [("perPage", JInt 50)] true [JInt 1; JInt 2] 2 init_world
      = Some (Raise (AssertionError msg),
              count_query (do_sleep TenthOfSecond
                (do_post (page_request "query" [("perPage", JInt 50); ("page", JInt 2)])
                   init_world))).
Proof.
  apply (depaginated_request_fails_on_malformed_page
           (λ _ _, Responds (success_reply (JObj [("Page", JObj [])]))) 1
           "query" [("perPage", JInt 50)] true [JInt 1; JInt 2] 2 init_world
           (JObj [("Page", JObj [])]) _ 1 (JObj [])).
  - reflexivity.
  - apply unwraps_inner; [discriminate|apply unwraps_here].
  - apply empty_object.
  - lia.
Defined.

(** *** Completeness on a paginated source *)

Lemma paged_source_answer items n query pv page :
  1 ≤ page →
  dict_get "perPage" pv = Some (JInt MAX_PAGE_SIZE) →
  paged_source items n (page_request query (dict_set "page" (JInt page) pv))
  = Responds (success_reply (page_reply items page)).
Proof.
  intros Hpage Hper.
  unfold paged_source, int_variable, page_request, item.
  cbn [py_getitem dict_get String.eqb Ascii.eqb Bool.eqb mbind Result_bind].
  cbn [py_getitem].
  rewrite dict_get_set_eq.
  rewrite dict_get_set_ne by discriminate. rewrite Hper.
  replace (1 <=? page) with true by (symmetry; by apply Z.leb_le).
  reflexivity.
Qed.

Lemma safe_post_request_success (net : Network) fuel post_json verbose w data :
  net (length (sent w)) post_json = Responds (success_reply data) →
  safe_post_request net (S fuel) post_json verbose w
  = Some (Ok data, after_request post_json w).
Proof.
  intros Hnet. unfold safe_post_request.
  destruct (post_loop_responds net fuel post_json verbose None (success_reply data) w)
    as (w1 & Hstep & _); [done..|].
  cbn [post_loop loop_exit]. rewrite Hnet. cbn [retry_after success_reply].
  by rewrite post_loop_exit with (r := success_reply data).
Qed.

(** One turn of the page loop on the paginated source. *)
Lemma page_loop_turn items fuel query pv verbose out_list page w :
  1 ≤ page →
  dict_get "perPage" pv = Some (JInt MAX_PAGE_SIZE) →
  let pv' := dict_set "page" (JInt page) pv in
  let w1 := after_request (page_request query pv') w in
  let out_list' :=
    out_list ++ take (Z.to_nat MAX_PAGE_SIZE)
                  (drop (Z.to_nat ((page - 1) * MAX_PAGE_SIZE)) items) in
  page_loop (paged_source items) (S (S fuel)) query pv verbose out_list page w
  = if page * MAX_PAGE_SIZE <? Z.of_nat (length items)
    then page_loop (paged_source items) (S fuel) query pv' verbose out_list' (page + 1) w1
    else Some (Ok out_list', w1).
Proof.
  intros Hpage Hper pv' w1 out_list'.
  cbn [page_loop]. fold pv'.
  rewrite safe_post_request_success with (data := page_reply items page)
    by (by apply paged_source_answer).
  fold w1. unfold page_reply.
  rewrite unwrap_loop_single by discriminate.
  rewrite unwrap_loop_found by reflexivity.
  cbn. fold out_list'.
  by destruct (page * MAX_PAGE_SIZE <? Z.of_nat (length items)).
Qed.

Lemma has_next_iff n page :
  0 ≤ n → 1 ≤ page ≤ pages_requested n →
  (page * MAX_PAGE_SIZE <? n) = true ↔ page < pages_requested n.
Proof.
  unfold pages_requested, ceil_div, MAX_PAGE_SIZE. intros Hn Hpage.
  rewrite Z.ltb_lt. Z.to_euclidean_division_equations. lia.
Qed.

Lemma page_loop_complete items query verbose :
  let last := pages_requested (Z.of_nat (length items)) in
  ∀ (todo : nat) page pv out_list w fuel,
    1 ≤ page ≤ last → todo = Z.to_nat (last - page) →
    dict_get "perPage" pv = Some (JInt MAX_PAGE_SIZE) →
    (todo + 1 < fuel)%nat →
    ∃ w',
      page_loop (paged_source items) fuel query pv verbose out_list page w
      = Some (Ok (out_list ++ drop (Z.to_nat ((page - 1) * MAX_PAGE_SIZE)) items), w')
      ∧ sent w' = sent w ++ map (λ i, page_request query (dict_set "page" (JInt i) pv))
                               (seqZ page (last - page + 1))
      ∧ total_queries w' = total_queries w + (last - page + 1)
      ∧ stdout w' = stdout w.
Proof.
  intros last todo.
  induction todo as [|todo IH]; intros page pv out_list w fuel Hpage Htodo Hper Hfuel.
  - destruct fuel as [|[|fuel]]; [lia..|].
    rewrite page_loop_turn by (done || lia).
    assert (page = last) as -> by lia.
    destruct (last * MAX_PAGE_SIZE <? Z.of_nat (length items)) eqn:Hnext.
    { apply has_next_iff in Hnext; [lia|lia|done]. }
    eexists. split; [|split; [|split]].
    + do 4 f_equal. apply take_ge.
      rewrite length_drop. apply Z.ltb_ge in Hnext.
      unfold MAX_PAGE_SIZE in *. lia.
    + replace (last - last + 1) with 1 by lia. done.
    + simpl. lia.
    + done.
  - destruct fuel as [|[|fuel]]; [lia..|].
    rewrite page_loop_turn by (done || lia).
    destruct (page * MAX_PAGE_SIZE <? Z.of_nat (length items)) eqn:Hnext.
    2: { assert (¬ page < last) as Hn; [|lia].
         intros Hlt. apply has_next_iff in Hlt; [congruence|lia|done]. }
    destruct (IH (page + 1) (dict_set "page" (JInt page) pv)
                (out_list ++ take (Z.to_nat MAX_PAGE_SIZE)
                               (drop (Z.to_nat ((page - 1) * MAX_PAGE_SIZE)) items))
                (after_request (page_request query (dict_set "page" (JInt page) pv)) w)
                (S fuel))
      as (w' & Hrun & Hsent & Htq & Hout).
    { lia. } { lia. } { by rewrite dict_get_set_ne. } { lia. }
    exists w'. rewrite Hrun, Hsent, Htq, Hout. split; [|split; [|split]].
    + f_equal. f_equal. rewrite <- app_assoc. f_equal.
      replace (Z.to_nat ((page + 1 - 1) * MAX_PAGE_SIZE))
        with (Z.to_nat ((page - 1) * MAX_PAGE_SIZE) + Z.to_nat MAX_PAGE_SIZE)%nat
        by (unfold MAX_PAGE_SIZE; lia).
      rewrite <- drop_drop. f_equal. apply take_drop.
    + rewrite (seqZ_cons page) by lia. simpl. rewrite <- app_assoc. simpl.
      f_equal. f_equal.
      replace (Z.pred (last - page + 1)) with (last - (page + 1) + 1) by lia.
      replace (Z.succ page) with (page + 1) by lia.
      apply map_ext. intros i. by rewrite dict_set_set.
    + simpl. lia.
    + done.
Qed.

(** C2 (as amended). On a paginated source of [N] items, in pages of 50,
    [depaginated_request] returns exactly the [N] items in server order; it
    requests the pages 1, 2, ... in turn, each with [perPage] 50, up to the
    first one without [hasNextPage]: [max 1 (ceil (N / 50))] requests, that is
    [ceil (N / 50)] for a source that is not empty and one request for an empty
    source. *)
Theorem depaginated_request_complete items query variables verbose w fuel :
  let N := Z.of_nat (length items) in
  let pages := Z.max 1 (ceil_div N MAX_PAGE_SIZE) in
  (Z.to_nat pages < fuel)%nat →
  ∃ w',
    depaginated_request (paged_source items) fuel query variables verbose w
    = Some (Ok items, w')
    ∧ sent w' =
        sent w ++
        map (λ page, page_request query
                       (dict_set "page" (JInt page)
                          (dict_set "perPage" (JInt 50) variables)))
            (seqZ 1 pages)
    ∧ Z.of_nat (length (sent w')) = Z.of_nat (length (sent w)) + pages
    ∧ total_queries w' = total_queries w + pages
    ∧ (0 < N → pages = ceil_div N MAX_PAGE_SIZE).
Proof.
  intros N pages Hfuel. unfold depaginated_request.
  destruct (page_loop_complete items query verbose (Z.to_nat (pages - 1)) 1
              (dict_set "perPage" (JInt MAX_PAGE_SIZE) variables) [] w fuel)
    as (w' & Hrun & Hsent & Htq & _).
  { fold N. unfold pages_requested. fold pages. lia. }
  { fold N. unfold pages_requested. by fold pages. }
  { apply dict_get_set_eq. }
  { lia. }
  exists w'. rewrite Hrun. simpl.
  unfold pages_requested in Hsent, Htq. fold N in Hsent, Htq. fold pages in Hsent, Htq.
  replace (pages - 1 + 1) with pages in * by lia.
  split; [done|]. split; [done|]. split; [|split; [done|]].
  - rewrite Hsent, length_app, length_map, length_seqZ. lia.
  - intros HN. subst pages. unfold ceil_div, MAX_PAGE_SIZE.
    Z.to_euclidean_division_equations. lia.
Qed.

Lemma depaginated_request_complete_witness :
  ∃ w',
    depaginated_request (paged_source (map JInt (seqZ 0 120))) 4 "query" [] true init_world
    = Some (Ok (map JInt (seqZ 0 120)), w')
    ∧ sent w' =
        sent init_world ++
        map (λ page, page_request "query"
                       (dict_set "page" (JInt page) (dict_set "perPage" (JInt 50) [])))
            (seqZ 1 (Z.max 1 (ceil_div (Z.of_nat (length (map JInt (seqZ 0 120)))) MAX_PAGE_SIZE)))
    ∧ Z.of_nat (length (sent w'))
      = Z.of_nat (length (sent init_world))
        + Z.max 1 (ceil_div (Z.of_nat (length (map JInt (seqZ 0 120)))) MAX_PAGE_SIZE)
    ∧ total_queries w'
      = total_queries init_world
        + Z.max 1 (ceil_div (Z.of_nat (length (map JInt (seqZ 0 120)))) MAX_PAGE_SIZE)
    ∧ (0 < Z.of_nat (length (map JInt (seqZ 0 120))) →
       Z.max 1 (ceil_div (Z.of_nat (length (map JInt (seqZ 0 120)))) MAX_PAGE_SIZE)
       = ceil_div (Z.of_nat (length (map JInt (seqZ 0 120)))) MAX_PAGE_SIZE).
Proof.
  apply (depaginated_request_complete (map JInt (seqZ 0 120)) "query" [] true init_world 4).
  vm_compute. lia.
Defined.

(** C2, as it was stated, fails on the empty source: one page is requested,
    not [ceil (0 / 50) = 0]. *)
Lemma depaginated_request_empty_source :
  ¬ (∀ items fuel query variables verbose w out w',
       depaginated_request (paged_source items) fuel query variables verbose w
       = Some (Ok out, w') →
       out = items
       ∧ Z.of_nat (length (sent w')) - Z.of_nat (length (sent w))
         = ceil_div (Z.of_nat (length items)) MAX_PAGE_SIZE).
Proof.
  intros H.
  destruct (H [] 2%nat "query" [] true init_world []
              (after_request
                 (page_request "query" [("perPage", JInt 50); ("page", JInt 1)]) init_world)
              eq_refl) as [_ Hcount].
  vm_compute in Hcount. discriminate.
Qed.

Example empty_source_run :
  depaginated_request (paged_source []) 2 "query" [] true init_world
  = Some (Ok [],
          {| sent := [page_request "query" [("perPage", JInt 50); ("page", JInt 1)]];
             total_queries := 1; stdout := []; slept := [TenthOfSecond] |}).
Proof. reflexivity. Qed.

(** ** Relation graph walker *)

Lemma set_pop_Some choice s x s' :
  set_pop choice s = Some (x, s') → x ∈ s ∧ s' = s ∖ {[x]}.
Proof.
  unfold set_pop. destruct (elements s !! _) as [y|] eqn:Hy; [|done].
  intros [= <- <-]. split; [|done].
  apply elem_of_elements. by eapply list_elem_of_lookup_2.
Qed.

Lemma set_pop_None choice s : set_pop choice s = None → s = ∅.
Proof.
  unfold set_pop. destruct (elements s !! _) as [y|] eqn:Hy; [done|]. intros _.
  apply lookup_ge_None in Hy.
  destruct (elements s) as [|z l] eqn:Hl; [by apply elements_empty_inv, leibniz_equiv in Hl|].
  pose proof (Nat.mod_upper_bound choice (length (z :: l))) as Hlt.
  simpl in *. lia.
Qed.

Lemma walker_inv_start show_id : walker_inv (get_related_media show_id).
Proof. unfold walker_inv. simpl. set_solver. Qed.

Section WalkFacts.
Variable graph : Z → list Relation.
Variable pop_choice : nat → nat.

#[local] Abbreviation step := (step graph pop_choice).
#[local] Abbreviation run := (run graph pop_choice).

Ltac step_cases g :=
  unfold step, chain, goto;
  destruct (pc g) as [|[|relation relations]|relation relations|] eqn:Hpc;
  [destruct (set_pop (pop_choice (pops g)) (queue g)) as [[popped queue']|] eqn:Hpop;
     [apply set_pop_Some in Hpop as [Hpopped ->]|apply set_pop_None in Hpop]
  | | repeat case_bool_decide; try destruct (not_chained relation) eqn:Hchain
  | destruct (not_chained relation) eqn:Hchain | ].

Lemma step_inv g :
  walker_inv g →
  walker_inv (step g).2
  ∧ show_id (step g).2 = show_id g
  ∧ related_show_ids g ⊆ related_show_ids (step g).2.
Proof.
  unfold walker_inv, pending. intros (Hroot & Hqueue & Hyield).
  step_cases g; simpl; rewrite ?Hpc; simpl; set_solver.
Qed.

Lemma step_yielded g show :
  walker_inv g → (step g).1 = Some (Yielded show) →
  (id show ∉ related_show_ids g)
  ∧ id show ∈ related_show_ids (step g).2
  ∧ id show ≠ show_id g.
Proof.
  unfold walker_inv. intros (Hroot & Hqueue & Hyield).
  step_cases g; simpl; try done; intros [= <-]; set_solver.
Qed.

Lemma step_fetched g cur :
  walker_inv g → (step g).1 = Some (Fetched cur) →
  cur ∈ queue g
  ∧ cur ∈ related_show_ids (step g).2
  ∧ cur ∉ pending (step g).2.
Proof.
  unfold walker_inv, pending. intros (Hroot & Hqueue & Hyield).
  step_cases g; simpl; try done; intros [= <-]; set_solver.
Qed.

(** An id is queued, or set to be queued, only as it is first visited. *)
Lemma step_pending g x :
  walker_inv g → x ∈ pending (step g).2 →
  x ∈ pending g ∨ x ∉ related_show_ids g.
Proof.
  unfold walker_inv, pending. intros (Hroot & Hqueue & Hyield).
  step_cases g; simpl; rewrite ?Hpc, ?Hchain; simpl;
    destruct (decide (x ∈ related_show_ids g)); set_solver.
Qed.

Lemma run_add n m g :
  run (n + m) g = ((run n g).1 ++ (run m (run n g).2).1, (run m (run n g).2).2).
Proof.
  revert g. induction n as [|n IH]; intros g; simpl.
  - by destruct (run m g).
  - destruct (step g) as [ev g1]. rewrite IH.
    destruct (run n g1) as [evs g2]. simpl.
    destruct (run m g2) as [evs' g3]. simpl. by destruct ev.
Qed.

Lemma run_S_last n g : (run (S n) g).2 = (step (run n g).2).2.
Proof.
  replace (S n) with (n + 1)%nat by lia. rewrite run_add. simpl.
  by destruct (step (run n g).2).
Qed.

(** A walk from any frame satisfying the invariant: only ids outside the
    visited set are yielded, each once; only pending or unvisited ids are
    fetched, each once. *)
Lemma run_trace n :
  ∀ g, walker_inv g →
    walker_inv (run n g).2
    ∧ show_id (run n g).2 = show_id g
    ∧ related_show_ids g ⊆ related_show_ids (run n g).2
    ∧ NoDup (id <$> yields (run n g).1)
    ∧ (∀ x, x ∈ id <$> yields (run n g).1 →
            (x ∉ related_show_ids g) ∧ x ∈ related_show_ids (run n g).2)
    ∧ NoDup (fetches (run n g).1)
    ∧ (∀ x, x ∈ fetches (run n g).1 →
            (x ∈ pending g ∨ x ∉ related_show_ids g)
            ∧ x ∈ related_show_ids (run n g).2).
Proof.
  induction n as [|n IH]; intros g Hinv; simpl.
  { split; [done|]. split; [done|]. split; [done|].
    split; [apply NoDup_nil_2|]. split; [by intros x Hx%elem_of_nil|].
    split; [apply NoDup_nil_2|]. by intros x Hx%elem_of_nil. }
  pose proof (step_inv g Hinv) as (Hinv1 & Hid1 & Hsub1).
  pose proof (step_yielded g) as Hy. pose proof (step_fetched g) as Hf.
  pose proof (step_pending g) as Hp.
  destruct (step g) as [ev g1]. simpl in *.
  specialize (IH g1 Hinv1) as (Hinv2 & Hid2 & Hsub2 & Hnd & Hys & Hnf & Hfs).
  destruct (run n g1) as [evs g2]. simpl in *.
  split; [done|]. split; [congruence|]. split; [set_solver|].
  destruct ev as [[cur|show]|]; simpl.
  - destruct (Hf cur Hinv eq_refl) as (Hq & Hr & Hnp).
    split; [done|]. split; [set_solver|]. split.
    + apply NoDup_cons. split; [|done]. intros Hin. apply Hfs in Hin. set_solver.
    + intros x [->|Hin]%elem_of_cons.
      * unfold pending. set_solver.
      * destruct (Hfs x Hin) as [[Hx|Hx] Hx']; [|set_solver].
        split; [|done]. by apply Hp.
  - destruct (Hy show Hinv eq_refl) as (Hn & Hr & Hne).
    split.
    { apply NoDup_cons. split; [|done]. intros Hin. apply Hys in Hin. set_solver. }
    split.
    { intros x [->|Hin]%elem_of_cons; [set_solver|]. apply Hys in Hin. set_solver. }
    split; [done|].
    intros x Hin. destruct (Hfs x Hin) as [[Hx|Hx] Hx']; [|set_solver].
    split; [|done]. by apply Hp.
  - split; [done|]. split; [set_solver|]. split; [done|].
    intros x Hin. destruct (Hfs x Hin) as [[Hx|Hx] Hx']; [|set_solver].
    split; [|done]. by apply Hp.
Qed.
End WalkFacts.

(** C1. In a walk of any relation graph, after any number of steps: the
    visited set has only grown at every step; an id that is visited and is
    neither queued nor about to be queued never becomes so again, so that no id
    is fetched twice; no id is yielded twice; and the root, which is in the
    visited set throughout, is never yielded. *)
Theorem walker_visits_once (graph : Z → list Relation) (pop_choice : nat → nat) root n :
  let at_step k := (run graph pop_choice k (get_related_media root)).2 in
  let evs := (run graph pop_choice n (get_related_media root)).1 in
  (∀ k, related_show_ids (at_step k) ⊆ related_show_ids (at_step (S k)))
  ∧ (∀ k x, x ∈ related_show_ids (at_step k) → x ∉ pending (at_step k) →
            x ∉ pending (at_step (S k)))
  ∧ NoDup (fetches evs)
  ∧ NoDup (id <$> yields evs)
  ∧ (root ∉ id <$> yields evs)
  ∧ root ∈ related_show_ids (at_step n).
Proof.
  intros at_step evs.
  assert (Hat : ∀ k, walker_inv (at_step k)).
  { intros k. by apply run_trace, walker_inv_start. }
  split; [|split].
  - intros k. unfold at_step. rewrite run_S_last. apply step_inv, Hat.
  - intros k x Hx Hnp Hp. unfold at_step in Hp. rewrite run_S_last in Hp.
    apply step_pending in Hp; [|apply Hat]. by destruct Hp.
  - destruct (run_trace graph pop_choice n (get_related_media root)
                (walker_inv_start root)) as (_ & _ & Hsub & Hnd & Hys & Hnf & _).
    split; [done|]. split; [done|]. split.
    + intros Hin. apply Hys in Hin as [Hin _]. simpl in Hin. set_solver.
    + apply Hsub. simpl. set_solver.
Qed.

Example cycle_walk :
  run cycle_graph (λ _, 0%nat) 9 (get_related_media 1)
  = ([Fetched 1; Yielded (plain_media 2); Fetched 2],
     {| show_id := 1; queue := ∅; related_show_ids := {[1; 2]}; pc := AtEnd; pops := 2 |}).
Proof. vm_compute. reflexivity. Qed.

Lemma fetches_app evs1 evs2 : fetches (evs1 ++ evs2) = fetches evs1 ++ fetches evs2.
Proof. apply omap_app. Qed.


Section WalkHistory.
Variable graph : Z → list Relation.
Variable pop_choice : nat → nat.
Variable root : Z.

#[local] Abbreviation step := (step graph pop_choice).
#[local] Abbreviation run := (run graph pop_choice).
#[local] Abbreviation justified := (justified graph root).
#[local] Abbreviation history_inv := (history_inv graph root).

Lemma justified_app evs evs' x : justified evs x → justified (evs ++ evs') x.
Proof.
  intros [->|(y & relation & Hy & Hrest)]; [by left|right].
  exists y, relation. rewrite fetches_app. set_solver.
Qed.

Lemma run_one g :
  run 1 g = (match (step g).1 with Some e => [e] | None => [] end, (step g).2).
Proof. simpl. by destruct (step g) as [[e|] g1]. Qed.

Lemma step_history evs g :
  history_inv evs g → history_inv (evs ++ (run 1 g).1) (run 1 g).2.
Proof.
  rewrite run_one. intros (Hpend & Hrels & Hfetched).
  assert (Hyield : ∀ relation, relation ∈ pc_relations g →
            not_chained relation = false → ∀ evs',
            justified (evs ++ evs') (id (node relation))).
  { intros relation Hin Hchain evs'. apply justified_app. right.
    destruct (Hrels relation Hin) as (y & Hy & Hg). by exists y, relation. }
  unfold history_inv, pending, pc_relations in *. simpl.
  unfold step, chain, goto.
  destruct (pc g) as [|[|relation relations]|relation relations|] eqn:Hpc; simpl.
  - destruct (set_pop _ _) as [[cur queue']|] eqn:Hpop; simpl.
    + apply set_pop_Some in Hpop as [Hcur ->].
      split; [|split].
      * intros x Hx. apply justified_app, Hpend. set_solver.
      * intros relation Hin. exists cur. rewrite fetches_app. simpl. set_solver.
      * intros x. rewrite fetches_app. simpl.
        intros [Hx|Hx]%elem_of_app; apply justified_app.
        -- by apply Hfetched.
        -- apply Hpend. set_solver.
    + rewrite app_nil_r. split; [|split]; [|set_solver|done].
      intros x Hx. apply Hpend. set_solver.
  - rewrite app_nil_r. split; [|split]; [|set_solver|done].
    intros x Hx. apply Hpend. set_solver.
  - case_bool_decide; simpl.
    { rewrite app_nil_r. split; [|split]; [|set_solver|done].
      intros x Hx. apply Hpend. set_solver. }
    case_bool_decide; simpl.
    + split; [|split].
      * intros x [Hx|Hx]%elem_of_union; [apply justified_app, Hpend; set_solver|].
        destruct (not_chained relation) eqn:Hchain; [set_solver|].
        apply elem_of_singleton in Hx as ->. apply Hyield; [set_solver|done].
      * intros r Hin. destruct (Hrels r Hin) as (y & Hy & Hg).
        exists y. rewrite fetches_app. set_solver.
      * intros x. rewrite fetches_app. simpl. rewrite app_nil_r.
        intros Hx. by apply justified_app, Hfetched.
    + rewrite app_nil_r. split; [|split].
      * destruct (not_chained relation) eqn:Hchain; simpl.
        -- intros x Hx. apply Hpend. set_solver.
        -- intros x Hx.
           assert (x ∈ queue g ∨ x = id (node relation)) as [Hq| ->] by set_solver.
           ++ apply Hpend. set_solver.
           ++ rewrite <- (app_nil_r evs). apply Hyield; [set_solver|done].
      * intros r Hin. apply Hrels.
        destruct (not_chained relation); simpl in Hin; set_solver.
      * done.
  - rewrite app_nil_r. split; [|split].
    + destruct (not_chained relation) eqn:Hchain; simpl.
      * intros x Hx. apply Hpend. set_solver.
      * intros x Hx. apply Hpend. set_solver.
    + intros r Hin. apply Hrels.
      destruct (not_chained relation); simpl in Hin; set_solver.
    + done.
  - rewrite Hpc. rewrite app_nil_r. done.
Qed.

Lemma run_history n :
  history_inv (run n (get_related_media root)).1 (run n (get_related_media root)).2.
Proof.
  induction n as [|n IH].
  - simpl. split; [|split]; [|set_solver|set_solver].
    intros x Hx. left. unfold pending in Hx. simpl in Hx. set_solver.
  - replace (S n) with (n + 1)%nat by lia. rewrite run_add. simpl fst. simpl snd.
    by apply step_history.
Qed.
End WalkHistory.


Example side_story_walk :
  (run side_story_graph (λ _, 0%nat) 9 (get_related_media 1)).1
  = [Fetched 1; Yielded (plain_media 2)].
Proof. vm_compute. reflexivity. Qed.

Example crossover_walk :
  fetches (run crossover_graph (λ _, 0%nat) 9 (get_related_media 1)).1 = [1]
  ∧ id <$> yields (run crossover_graph (λ _, 0%nat) 9 (get_related_media 1)).1 = [2].
Proof. vm_compute. done. Qed.


(** *** Termination *)

Section WalkTermination.
Variable graph : Z → list Relation.
Variable pop_choice : nat → nat.
(** A finite set that holds the node of every relation of the graph. *)
Variable nodes : gset Z.
Hypothesis graph_nodes : ∀ i relation, relation ∈ graph i → id (node relation) ∈ nodes.

#[local] Abbreviation step := (step graph pop_choice).
#[local] Abbreviation run := (run graph pop_choice).
#[local] Abbreviation to_visit := (to_visit nodes).
#[local] Abbreviation smaller := (smaller nodes).
#[local] Abbreviation relations_in_nodes := (relations_in_nodes nodes).

Lemma size_visit (visited : gset Z) x :
  x ∈ nodes → x ∉ visited →
  (size (nodes ∖ (visited ∪ {[x]})) < size (nodes ∖ visited))%nat.
Proof.
  intros Hx Hnew. apply subset_size. apply strict_spec_alt. split; [set_solver|].
  intros Heq. assert (x ∈ nodes ∖ visited) as Hin by set_solver.
  rewrite <- Heq in Hin. set_solver.
Qed.

Lemma size_pop (s : gset Z) x : x ∈ s → (size (s ∖ {[x]}) < size s)%nat.
Proof.
  intros Hx. apply subset_size. apply strict_spec_alt. split; [set_solver|].
  intros Heq. rewrite <- Heq in Hx. set_solver.
Qed.

Lemma step_smaller g :
  walker_inv g → relations_in_nodes g → pc g ≠ AtEnd →
  relations_in_nodes (step g).2
  ∧ (pc (step g).2 = AtEnd ∨ smaller (step g).2 g).
Proof.
  unfold walker_inv, relations_in_nodes, pc_relations, smaller, to_visit, to_iterate.
  intros (Hroot & Hqueue & Hyield) Hrels Hend.
  unfold step, chain, goto.
  destruct (pc g) as [|[|relation relations]|relation relations|] eqn:Hpc; simpl;
    [| | |destruct (not_chained relation); simpl; rewrite ?Hpc|done].
  - destruct (set_pop _ _) as [[cur queue']|] eqn:Hpop; simpl; [|split; [set_solver|by left]].
    apply set_pop_Some in Hpop as [Hcur ->]. split; [by eauto|].
    right. right. split; [lia|]. left. by apply size_pop.
  - rewrite ?Hpc. split; [set_solver|]. right. right. split; [lia|]. right. split; lia.
  - case_bool_decide; simpl.
    { rewrite ?Hpc. split; [set_solver|]. right. right. split; [lia|]. right. simpl. lia. }
    pose proof (size_visit (related_show_ids g) (id (node relation))) as Hlt.
    assert (id (node relation) ≠ show_id g) as Hne by (intros Heq; congruence).
    rewrite (bool_decide_eq_true_2 _ Hne). simpl.
    assert (id (node relation) ∈ nodes) as Hin by (apply Hrels; set_solver).
    split; [intros r Hr; apply Hrels; set_solver|]. right. left.
    specialize (Hlt Hin H). lia.
  - split; [set_solver|]. right. left. lia.
  - split; [set_solver|]. right. left. lia.
Qed.

Lemma run_step n g : (run (S n) g).2 = (run n (step g).2).2.
Proof.
  replace (S n) with (1 + n)%nat by lia. rewrite run_add.
  simpl. by destruct (step g) as [[e|] g1].
Qed.

Lemma terminates_from :
  ∀ (a b c : nat) g, walker_inv g → relations_in_nodes g →
    to_visit g = a → size (queue g) = b → to_iterate g = c →
    ∃ n, pc (run n g).2 = AtEnd.
Proof.
  intros a. induction a as [a IHa] using lt_wf_ind.
  intros b. induction b as [b IHb] using lt_wf_ind.
  intros c. induction c as [c IHc] using lt_wf_ind.
  intros g Hinv Hrels Ha Hb Hc.
  assert (pc g = AtEnd ∨ pc g ≠ AtEnd) as [Hend|Hend]
    by (destruct (pc g); (by left) || (by right)).
  { by exists 0%nat. }
  destruct (step_smaller g Hinv Hrels Hend) as (Hrels1 & Hsmall).
  destruct (step_inv graph pop_choice g Hinv) as (Hinv1 & _).
  destruct Hsmall as [Hdone|Hsmall].
  { exists 1%nat. by rewrite run_step. }
  assert (∃ n, pc (run n (step g).2).2 = AtEnd) as [n Hn].
  { destruct Hsmall as [Hlt|[Heq [Hlt|[Heq' Hlt]]]].
    - eapply (IHa (to_visit (step g).2)); [lia|done..].
    - eapply (IHb (size (queue (step g).2))); [lia|done|done|lia|done|done].
    - eapply (IHc (to_iterate (step g).2)); [lia|done|done|lia|lia|done]. }
  exists (S n). by rewrite run_step.
Qed.

Lemma run_at_end n g : pc g = AtEnd → run n g = ([], g).
Proof.
  intros Hend. induction n as [|n IH]; simpl; [done|].
  unfold step. by rewrite Hend, IH.
Qed.

Lemma walk_terminates root :
  ∃ n, pc (run n (get_related_media root)).2 = AtEnd
       ∧ ∀ m, (n ≤ m)%nat →
              run m (get_related_media root) = run n (get_related_media root).
Proof.
  destruct (terminates_from _ _ _ (get_related_media root)
              (walker_inv_start root) ltac:(intros r Hr; set_solver)
              eq_refl eq_refl eq_refl) as [n Hn].
  exists n. split; [done|]. intros m Hm.
  replace m with (n + (m - n))%nat by lia. rewrite run_add.
  rewrite (run_at_end _ _ Hn). simpl. rewrite app_nil_r. by destruct (run n _).
Qed.
End WalkTermination.

(** C7. When the nodes of all the relations of the graph lie in a finite set,
    a walk ends: after some number of steps the generator is at its end, and
    no later step adds a fetch or a yield, so that the yielded sequence is
    finite.  A walk starts with the queue and the visited set holding the root
    alone, whatever walks were made before. *)
Theorem walker_terminates
    (graph : Z → list Relation) (pop_choice : nat → nat) (nodes : gset Z) root :
  (∀ i relation, relation ∈ graph i → id (node relation) ∈ nodes) →
  queue (get_related_media root) = {[root]}
  ∧ related_show_ids (get_related_media root) = {[root]}
  ∧ pc (get_related_media root) = AtWhile
  ∧ ∃ n, pc (run graph pop_choice n (get_related_media root)).2 = AtEnd
         ∧ ∀ m, (n ≤ m)%nat →
                run graph pop_choice m (get_related_media root)
                = run graph pop_choice n (get_related_media root).
Proof.
  intros Hnodes. split; [done|]. split; [done|]. split; [done|].
  by apply (walk_terminates graph pop_choice nodes).
Qed.

Lemma walker_terminates_witness :
  queue (get_related_media 1) = {[1]}
  ∧ related_show_ids (get_related_media 1) = {[1]}
  ∧ pc (get_related_media 1) = AtWhile
  ∧ ∃ n, pc (run cycle_graph (λ _, 0%nat) n (get_related_media 1)).2 = AtEnd
         ∧ ∀ m, (n ≤ m)%nat →
                run cycle_graph (λ _, 0%nat) m (get_related_media 1)
                = run cycle_graph (λ _, 0%nat) n (get_related_media 1).
Proof.
  apply (walker_terminates cycle_graph (λ _, 0%nat) {[1; 2]} 1).
  intros i relation. unfold cycle_graph.
  destruct (i =? 1); [|destruct (i =? 2)]; simpl.
  - intros ->%list_elem_of_singleton. simpl. set_solver.
  - intros ->%list_elem_of_singleton. simpl. set_solver.
  - intros []%elem_of_nil.
Defined.

(** ** Membership matcher *)

Lemma pulls_S {St A} (anext : AsyncNext St A) k s :
  pulls anext (S k) s
  = match anext s with
    | Some (Some a, s1) =>
        match pulls anext k s1 with
        | Some (l, s2) => Some (a :: l, s2)
        | None => None
        end
    | _ => None
    end.
Proof. reflexivity. Qed.

Lemma pulls_cons {St A} (anext : AsyncNext St A) k s a s1 l s' :
  anext s = Some (Some a, s1) →
  pulls anext (S k) s = Some (l, s') ↔
  ∃ l', l = a :: l' ∧ pulls anext k s1 = Some (l', s').
Proof.
  intros Hs. rewrite pulls_S, Hs.
  destruct (pulls anext k s1) as [[l1 s2]|]; split.
  - intros [= <- <-]. by exists l1.
  - by intros (l' & -> & [= -> ->]).
  - done.
  - by intros (l' & _ & ?).
Qed.

Lemma pulls_stuck {St A} (anext : AsyncNext St A) k s l s' :
  (∀ a s1, anext s ≠ Some (Some a, s1)) → pulls anext (S k) s ≠ Some (l, s').
Proof.
  intros Hs. rewrite pulls_S.
  destruct (anext s) as [[[a|] s1]|]; [by destruct (Hs a s1)|done|done].
Qed.

(** What [async_any] over a generator expression returns, and where it
    leaves the source: [true] with the source just past its first item that
    satisfies [f]; [false] with the source exhausted, no item satisfying
    [f]. *)
Lemma async_any_genexpr {St A} (f : A → bool) (source : AsyncNext St A) fuel :
  ∀ s b s',
    async_any (async_genexpr f source) fuel s = Some (b, s')
    ↔ ∃ pre,
        (length pre < fuel)%nat
        ∧ Forall (λ a, f a = false) pre
        ∧ if b
          then ∃ a, f a = true ∧ pulls source (S (length pre)) s = Some (pre ++ [a], s')
          else ∃ s1, pulls source (length pre) s = Some (pre, s1)
                     ∧ source s1 = Some (None, s').
Proof.
  induction fuel as [|fuel IH]; intros s b s'.
  { split; [done|]. intros (pre & Hlen & _). lia. }
  cbn [async_any]. unfold async_genexpr at 1.
  destruct (source s) as [[[a|] s1]|] eqn:Hs.
  - (* the source hands out [a] *)
    assert (Hhead : ∀ pre : list A,
              (if b
               then ∃ a0, f a0 = true
                          ∧ pulls source (S (length pre)) s = Some (pre ++ [a0], s')
               else ∃ s2, pulls source (length pre) s = Some (pre, s2)
                          ∧ source s2 = Some (None, s')) →
              (pre = [] ∧ b = true ∧ f a = true ∧ s' = s1)
              ∨ ∃ pre', pre = a :: pre'
                  ∧ if b
                    then ∃ a0, f a0 = true
                               ∧ pulls source (S (length pre')) s1 = Some (pre' ++ [a0], s')
                    else ∃ s2, pulls source (length pre') s1 = Some (pre', s2)
                               ∧ source s2 = Some (None, s')).
    { intros pre Hb. destruct b.
      - destruct Hb as (a0 & Ha0 & Hp).
        apply (pulls_cons source _ s a s1) in Hp as (l' & Hl & Hp); [|done].
        destruct pre as [|a' pre']; simpl in Hl.
        + left. injection Hl as <- <-. simpl in Hp. by injection Hp as <-.
        + right. injection Hl as -> <-. exists pre'. split; [done|]. by exists a0.
      - destruct Hb as (s2 & Hp & Hstop). destruct pre as [|a' pre'].
        + simpl in Hp. injection Hp as <-. congruence.
        + cbn [length] in Hp.
          apply (pulls_cons source _ s a s1) in Hp as (l' & Hl & Hp); [|done].
          right. injection Hl as -> <-. exists pre'. split; [done|]. by exists s2. }
    destruct (f a) eqn:Hfa.
    + split.
      * intros [= <- <-]. exists []. split; [simpl; lia|]. split; [done|].
        exists a. split; [done|]. simpl. by rewrite Hs.
      * intros (pre & Hlen & Hpre & Hb).
        destruct (Hhead pre Hb) as [(_ & -> & _ & ->)|(pre' & -> & _)]; [done|].
        apply Forall_cons in Hpre as [Ha' _]. congruence.
    + rewrite IH. split.
      * intros (pre & Hlen & Hpre & Hb). exists (a :: pre).
        split; [simpl; lia|]. split; [by apply Forall_cons|].
        destruct b.
        -- destruct Hb as (a0 & Ha0 & Hp). exists a0. split; [done|].
           cbn [length app]. apply (pulls_cons source _ s a s1); [done|]. by eexists.
        -- destruct Hb as (s2 & Hp & Hstop). exists s2. split; [|done].
           cbn [length]. apply (pulls_cons source _ s a s1); [done|]. by eexists.
      * intros (pre & Hlen & Hpre & Hb).
        destruct (Hhead pre Hb) as [(_ & _ & ? & _)|(pre' & -> & Hb')]; [congruence|].
        apply Forall_cons in Hpre as [_ Hpre].
        exists pre'. split; [simpl in Hlen; lia|]. by split.
  - (* the source is exhausted *)
    split.
    + intros [= <- <-]. exists []. split; [simpl; lia|]. split; [done|].
      exists s. by split.
    + intros (pre & Hlen & Hpre & Hb).
      assert (Hstuck : ∀ k l s2, pulls source (S k) s ≠ Some (l, s2)).
      { intros k l s2. apply pulls_stuck. congruence. }
      destruct b.
      * destruct Hb as (a0 & _ & Hp). by apply Hstuck in Hp.
      * destruct Hb as (s2 & Hp & Hstop). destruct pre as [|a' pre].
        -- simpl in Hp. injection Hp as <-. congruence.
        -- by apply Hstuck in Hp.
  - (* the source never answers *)
    split; [done|].
    intros (pre & Hlen & Hpre & Hb).
    assert (Hstuck : ∀ k l s2, pulls source (S k) s ≠ Some (l, s2)).
    { intros k l s2. apply pulls_stuck. congruence. }
    destruct b.
    + destruct Hb as (a0 & _ & Hp). by apply Hstuck in Hp.
    + destruct Hb as (s2 & Hp & Hstop). destruct pre as [|a' pre].
      * simpl in Hp. injection Hp as <-. congruence.
      * by apply Hstuck in Hp.
Qed.

(** C4. The matcher returns [true] exactly when the walk yields a node whose
    id is in the user set after yielding nodes [pre] none of which is, and it
    leaves the walker where the [length pre + 1] calls of [__anext__] that
    produced them left it, with nothing more consumed; it returns [false]
    exactly when the walk comes to its end having yielded only nodes [pre]
    whose ids are not in the user set. *)
Theorem has_upcoming_relation_short_circuits
    (graph : Z → list Relation) (pop_choice : nat → nat) fuel show_id
    (user_media_ids : gset pykey) b g' :
  has_upcoming_relation graph pop_choice fuel show_id user_media_ids = Some (b, g')
  ↔ ∃ pre,
      (length pre < fuel)%nat
      ∧ Forall (λ m, KInt (id m) ∉ user_media_ids) pre
      ∧ if b
        then ∃ m, KInt (id m) ∈ user_media_ids
                  ∧ pulls (anext graph pop_choice fuel) (S (length pre))
                      (get_related_media show_id)
                    = Some (pre ++ [m], g')
        else ∃ g1, pulls (anext graph pop_choice fuel) (length pre)
                     (get_related_media show_id)
                   = Some (pre, g1)
                   ∧ anext graph pop_choice fuel g1 = Some (None, g').
Proof.
  unfold has_upcoming_relation. rewrite async_any_genexpr.
  assert (Hall : ∀ pre : list Media,
            Forall (λ a, bool_decide (KInt (id a) ∈ user_media_ids) = false) pre
            ↔ Forall (λ m, KInt (id m) ∉ user_media_ids) pre).
  { intros pre. apply Forall_proper; [|done]. intros m.
    by rewrite bool_decide_eq_false. }
  split; intros (pre & Hlen & Hpre & Hb); exists pre;
    (split; [done|]); (split; [by apply Hall|]); destruct b; try done.
  - destruct Hb as (m & Hm & Hp). exists m. by rewrite bool_decide_eq_true in Hm.
  - destruct Hb as (m & Hm & Hp). exists m. by rewrite bool_decide_eq_true.
Qed.

Example matcher_stops_at_42 :
  has_upcoming_relation three_relations_graph (λ _, 0%nat) 5 0 {[KInt 42]}
  = Some (true,
          {| show_id := 0; queue := {[1]}; related_show_ids := {[0; 1; 42]};
             pc := AtYield (edge "SEQUEL" 42) [edge "SEQUEL" 999]; pops := 1 |}).
Proof. vm_compute. reflexivity. Qed.

Example counting_mock :
  async_any (async_genexpr (λ i : Z, bool_decide (i ∈ ({[42]} : gset Z))) list_anext) 5
    [1; 42; 999]
  = Some (true, [999]).
Proof. vm_compute. reflexivity. Qed.

Example matcher_exhausts_without_match :
  has_upcoming_relation three_relations_graph (λ _, 0%nat) 9 0 {[KInt 7]}
  = Some (false,
          {| show_id := 0; queue := ∅; related_show_ids := {[0; 1; 42; 999]};
             pc := AtEnd; pops := 4 |}).
Proof. vm_compute. reflexivity. Qed.

(** On a walk that ends within [n] steps, the matcher returns. *)
Section MatcherReturns.
Variable graph : Z → list Relation.
Variable pop_choice : nat → nat.

#[local] Abbreviation step := (step graph pop_choice).
#[local] Abbreviation run := (run graph pop_choice).
#[local] Abbreviation anext := (anext graph pop_choice).

Lemma run_snd_S n g : (run (S n) g).2 = (run n (step g).2).2.
Proof.
  replace (S n) with (1 + n)%nat by lia. rewrite run_add.
  simpl. by destruct (step g) as [[e|] g1].
Qed.

Lemma anext_S fuel g :
  pc g ≠ AtEnd →
  anext (S fuel) g
  = match step g with
    | (Some (Yielded show), g1) => Some (Some show, g1)
    | (_, g1) => anext fuel g1
    end.
Proof. intros Hpc. simpl. by destruct (pc g). Qed.

(** [__anext__] returns: the end of the walk, or a node and a walker that
    is nearer to the end. *)
Lemma anext_returns n :
  ∀ g fuel, pc (run n g).2 = AtEnd → (n < fuel)%nat →
    (∃ g', anext fuel g = Some (None, g'))
    ∨ (∃ show g1 k, anext fuel g = Some (Some show, g1)
                    ∧ (k < n)%nat ∧ pc (run k g1).2 = AtEnd).
Proof.
  induction n as [|n IH]; intros g fuel Hend Hfuel.
  { left. exists g. simpl in Hend. destruct fuel; simpl; by rewrite Hend. }
  destruct fuel as [|fuel]; [lia|].
  assert (pc g = AtEnd ∨ pc g ≠ AtEnd) as [Hpc|Hpc]
    by (destruct (pc g); (by left) || (by right)).
  { left. exists g. simpl. by rewrite Hpc. }
  rewrite run_snd_S in Hend. rewrite anext_S by done.
  destruct (step g) as [[[cur|show]|] g1]; simpl in Hend.
  - destruct (IH g1 fuel Hend) as [Hstop|(show & g2 & k & Hnext & Hk & Hend')];
      [lia|by left|].
    right. exists show, g2, k. split; [done|]. split; [lia|done].
  - right. exists show, g1, n. split; [done|]. split; [lia|done].
  - destruct (IH g1 fuel Hend) as [Hstop|(show & g2 & k & Hnext & Hk & Hend')];
      [lia|by left|].
    right. exists show, g2, k. split; [done|]. split; [lia|done].
Qed.

Lemma async_any_returns (f : Media → bool) fuel n :
  ∀ g fuel', pc (run n g).2 = AtEnd → (n < fuel)%nat → (n < fuel')%nat →
    ∃ b g', async_any (async_genexpr f (anext fuel)) fuel' g = Some (b, g').
Proof.
  induction n as [n IH] using lt_wf_ind. intros g fuel' Hend Hfuel Hfuel'.
  destruct fuel' as [|fuel']; [lia|].
  cbn [async_any]. unfold async_genexpr at 1.
  destruct (anext_returns n g fuel Hend Hfuel)
    as [[g' ->]|(show & g1 & k & -> & Hk & Hend')]; [by eauto|].
  destruct (f show); [by eauto|].
  apply (IH k); [done|done|lia|lia].
Qed.
End MatcherReturns.

(** The matcher returns on every graph whose relation nodes lie in a finite
    set. *)
Lemma has_upcoming_relation_returns
    (graph : Z → list Relation) (pop_choice : nat → nat) (nodes : gset Z)
    show_id (user_media_ids : gset pykey) :
  (∀ i relation, relation ∈ graph i → id (node relation) ∈ nodes) →
  ∃ n, ∀ fuel, (n < fuel)%nat →
    ∃ b g', has_upcoming_relation graph pop_choice fuel show_id user_media_ids
            = Some (b, g').
Proof.
  intros Hnodes.
  destruct (walk_terminates graph pop_choice nodes Hnodes show_id) as (n & Hend & _).
  exists n. intros fuel Hfuel. by apply (async_any_returns graph pop_choice _ fuel n).
Qed.

(** ** The entry point *)


Example scenario_user_media_ids :
  fst <$> main_user_media_ids (anilist_lists 7 scenario_lists) 3
            {| username := "someone"; planning := true; completed := false |} init_world
  = Some (Ok {[KInt 10; KInt 11]}).
Proof. vm_compute. reflexivity. Qed.


(** C10. The title printed for a show is its English title when that is a
    string that is not empty, and its romaji title when the English title is
    null or the empty string, and more generally whenever it is falsy. *)
Theorem printed_title_prefers_english show t romaji_title :
  item show "title" = Ok t →
  item t "romaji" = Ok romaji_title →
  (∀ s, item t "english" = Ok (JStr s) → s ≠ "" → printed_title show = Ok (JStr s))
  ∧ (item t "english" = Ok JNull → printed_title show = Ok romaji_title)
  ∧ (item t "english" = Ok (JStr "") → printed_title show = Ok romaji_title)
  ∧ (∀ e, item t "english" = Ok e →
          printed_title show = Ok (if py_truthy e then e else romaji_title)).
Proof.
  intros Ht Hr.
  assert (Hall : ∀ e, item t "english" = Ok e →
            printed_title show = Ok (if py_truthy e then e else romaji_title)).
  { intros e He. unfold printed_title. rewrite Ht. simpl. rewrite He. simpl.
    destruct (py_truthy e); [done|]. simpl. by rewrite Hr. }
  split; [|split; [|split]]; [| | |done].
  - intros s He Hs. rewrite (Hall _ He). simpl.
    apply String.eqb_neq in Hs. by rewrite Hs.
  - intros He. by rewrite (Hall _ He).
  - intros He. by rewrite (Hall _ He).
Qed.

Lemma printed_title_prefers_english_witness :
  (∀ s, item (JObj [("english", JStr ""); ("romaji", JStr "Sousou no Frieren")]) "english"
        = Ok (JStr s) → s ≠ "" → printed_title (show_of (JStr "")) = Ok (JStr s))
  ∧ (item (JObj [("english", JStr ""); ("romaji", JStr "Sousou no Frieren")]) "english"
     = Ok JNull → printed_title (show_of (JStr "")) = Ok (JStr "Sousou no Frieren"))
  ∧ (item (JObj [("english", JStr ""); ("romaji", JStr "Sousou no Frieren")]) "english"
     = Ok (JStr "") → printed_title (show_of (JStr "")) = Ok (JStr "Sousou no Frieren"))
  ∧ (∀ e, item (JObj [("english", JStr ""); ("romaji", JStr "Sousou no Frieren")]) "english"
          = Ok e →
          printed_title (show_of (JStr ""))
          = Ok (if py_truthy e then e else JStr "Sousou no Frieren")).
Proof.
  apply (printed_title_prefers_english (show_of (JStr ""))
           (JObj [("english", JStr ""); ("romaji", JStr "Sousou no Frieren")])
           (JStr "Sousou no Frieren")); reflexivity.
Defined.

Example printed_titles :
  printed_title (show_of (JStr "Frieren")) = Ok (JStr "Frieren")
  ∧ printed_title (show_of JNull) = Ok (JStr "Sousou no Frieren")
  ∧ printed_title (show_of (JStr "")) = Ok (JStr "Sousou no Frieren").
Proof. by vm_compute. Qed.

(** * More of the code *)

(** ** [dict_intersection] *)

Lemma dict_has_keys k d : dict_has k d = true ↔ k ∈ dict_keys d.
Proof.
  unfold dict_has, dict_keys. induction d as [|[k' v] d IH]; simpl.
  - split; [done|]. by intros ?%elem_of_nil.
  - destruct (String.eqb k k') eqn:E.
    + apply String.eqb_eq in E as ->. split; [|done]. intros _. by left.
    + apply String.eqb_neq in E. rewrite IH, elem_of_cons. naive_solver.
Qed.

(** X1. A key is in the intersection exactly when there is at least one dict
    and every dict has the key; in particular no dicts give no keys. *)
Theorem dict_intersection_spec dicts k :
  k ∈ dict_intersection dicts
  ↔ dicts ≠ [] ∧ ∀ d, d ∈ dicts → dict_has k d = true.
Proof.
  destruct dicts as [|first others]; simpl.
  { split; [by intros ?%elem_of_nil|]. by intros [? _]. }
  rewrite list_elem_of_filter, <- dict_has_keys.
  rewrite forallb_True, Forall_forall. split.
  - intros [Hothers Hfirst]. split; [done|].
    intros d [->|Hd]%elem_of_cons; [done|]. apply Is_true_true, Hothers, Hd.
  - intros [_ Hall]. split.
    + intros d Hd. apply Is_true_true, Hall. by right.
    + apply Hall. by left.
Qed.

(** X2. The intersection keeps the order of the first dict: it is a
    subsequence of its keys, without repetition when they have none; and one
    more dict can only remove keys from it. *)
Theorem dict_intersection_order first others d :
  dict_intersection (first :: others) `sublist_of` dict_keys first
  ∧ (NoDup (dict_keys first) → NoDup (dict_intersection (first :: others)))
  ∧ dict_intersection (first :: others ++ [d])
      `sublist_of` dict_intersection (first :: others).
Proof.
  simpl. split; [apply sublist_filter|]. split; [apply NoDup_filter|].
  induction (dict_keys first) as [|k ks IH]; [done|].
  rewrite !filter_cons. rewrite forallb_app. simpl.
  destruct (forallb (dict_has k) others); simpl.
  - destruct (dict_has k d); simpl; [by apply sublist_skip|by apply sublist_cons].
  - done.
Qed.

(** ** [async_all] *)

(** X3. [async_all] is [async_any] on the negated items, negated: the two
    return after the same item and leave the iterator in the same state. *)
Theorem async_all_any_dual {St} (anext : AsyncNext St bool) fuel s :
  async_all anext fuel s = swap_answer <$> async_any (async_genexpr negb anext) fuel s.
Proof.
  revert s. induction fuel as [|fuel IH]; intros s; [done|].
  cbn [async_all async_any]. unfold async_genexpr at 1.
  destruct (anext s) as [[[thing|] s1]|]; [|done|done].
  destruct thing; simpl; [apply IH|done].
Qed.

Lemma async_genexpr_compose {St A B C} (f : A → B) (h : B → C) (source : AsyncNext St A) s :
  async_genexpr h (async_genexpr f source) s = async_genexpr (h ∘ f) source s.
Proof. unfold async_genexpr. by destruct (source s) as [[[a|] s1]|]. Qed.

Lemma async_any_ext {St} (next1 next2 : AsyncNext St bool) fuel :
  (∀ s, next1 s = next2 s) → ∀ s, async_any next1 fuel s = async_any next2 fuel s.
Proof.
  intros Hext. induction fuel as [|fuel IH]; intros s; [done|].
  simpl. rewrite Hext. by destruct (next2 s) as [[[[]|] s1]|].
Qed.

(** X4. [async_all] over a generator expression returns [false] exactly when
    the source hands out an item that fails [f] after items [pre] that all
    satisfy it, and leaves the source just past that item; it returns [true]
    exactly when the source is exhausted after items that all satisfy [f]. *)
Theorem async_all_genexpr {St A} (f : A → bool) (source : AsyncNext St A) fuel s b s' :
  async_all (async_genexpr f source) fuel s = Some (b, s')
  ↔ ∃ pre,
      (length pre < fuel)%nat
      ∧ Forall (λ a, f a = true) pre
      ∧ if b
        then ∃ s1, pulls source (length pre) s = Some (pre, s1)
                   ∧ source s1 = Some (None, s')
        else ∃ a, f a = false ∧ pulls source (S (length pre)) s = Some (pre ++ [a], s').
Proof.
  rewrite async_all_any_dual.
  rewrite (async_any_ext _ (async_genexpr (negb ∘ f) source))
    by (intros; apply async_genexpr_compose).
  destruct (async_any _ fuel s) as [[b0 s0]|] eqn:Hany; simpl.
  - unfold swap_answer. simpl. split.
    + intros [= <- <-]. apply async_any_genexpr in Hany as (pre & Hlen & Hpre & Hb).
      exists pre. split; [done|]. split.
      { eapply Forall_impl; [done|]. intros a. simpl. by destruct (f a). }
      destruct b0; simpl; [|done].
      destruct Hb as (a & Ha & Hp). exists a. split; [|done].
      simpl in Ha. by destruct (f a).
    + intros (pre & Hlen & Hpre & Hb).
      assert (async_any (async_genexpr (negb ∘ f) source) fuel s = Some (negb b, s'))
        as Hany'; [|rewrite Hany in Hany'; injection Hany' as -> ->;
                   by rewrite negb_involutive].
      apply async_any_genexpr. exists pre. split; [done|]. split.
      { eapply Forall_impl; [done|]. intros a Ha. simpl. by rewrite Ha. }
      destruct b; simpl; [done|].
      destruct Hb as (a & Ha & Hp). exists a. split; [|done]. simpl. by rewrite Ha.
  - split; [done|]. intros (pre & Hlen & Hpre & Hb).
    assert (async_any (async_genexpr (negb ∘ f) source) fuel s = Some (negb b, s'))
      as Hany'; [|by rewrite Hany in Hany'].
    apply async_any_genexpr. exists pre. split; [done|]. split.
    { eapply Forall_impl; [done|]. intros a Ha. simpl. by rewrite Ha. }
    destruct b; simpl; [done|].
    destruct Hb as (a & Ha & Hp). exists a. split; [|done]. simpl. by rewrite Ha.
Qed.

(** ** More on the request transport *)

Section TransportScripts.
Variable net : Network.

(** One turn of the loop on a retried outcome. *)
Lemma post_loop_retried fuel post_json verbose response o w :
  loop_exit response = None →
  net (length (sent w)) post_json = o →
  retried o →
  ∃ response' w1,
    post_loop net (S fuel) post_json verbose response w
    = post_loop net fuel post_json verbose response' w1
    ∧ loop_exit response' = None
    ∧ sent w1 = sent w ++ [post_json]
    ∧ total_queries w1 = total_queries w
    ∧ slept w1 = slept w ++ [wait_for o]
    ∧ stdout w1 = stdout w ++ printed_for verbose o.
Proof.
  intros Hexit Hnet Hretried. cbn [post_loop]. rewrite Hexit, Hnet.
  destruct o as [r|exc_type]; simpl in Hretried.
  - destruct Hretried as [H429 Hint].
    unfold integer_retry_after, wait_for, wait_after, printed_for in *.
    destruct (retry_after r) as [[n|t]|]; [|done|].
    + eexists (Some r), _. split; [reflexivity|].
      split; [simpl; by rewrite H429|].
      destruct verbose; simpl; rewrite <- ?app_assoc; by rewrite ?app_nil_r.
    + eexists (Some r), _. split; [reflexivity|].
      split; [simpl; by rewrite H429|]. simpl. by rewrite app_nil_r.
  - subst exc_type. rewrite String.eqb_refl.
    eexists response, _. split; [reflexivity|]. split; [done|].
    simpl. by rewrite <- app_assoc.
Qed.

(** A run of retried outcomes [os]: the loop posts once for each and comes
    back to its test, the counter untouched. *)
Lemma post_loop_script post_json verbose os :
  Forall retried os →
  ∀ w response fuel,
    loop_exit response = None →
    (∀ i o, os !! i = Some o → net (length (sent w) + i)%nat post_json = o) →
    ∃ response' w1,
      post_loop net (length os + fuel) post_json verbose response w
      = post_loop net fuel post_json verbose response' w1
      ∧ loop_exit response' = None
      ∧ sent w1 = sent w ++ repeat post_json (length os)
      ∧ total_queries w1 = total_queries w
      ∧ slept w1 = slept w ++ map wait_for os
      ∧ stdout w1 = stdout w ++ concat (map (printed_for verbose) os).
Proof.
  induction 1 as [|o os Ho _ IH]; intros w response fuel Hexit Hnet.
  { exists response, w. simpl. by rewrite !app_nil_r. }
  pose proof (Hnet 0%nat o eq_refl) as H0. rewrite Nat.add_0_r in H0.
  destruct (post_loop_retried (length os + fuel) post_json verbose response o w
              Hexit H0 Ho) as (response1 & w1 & Hturn & Hexit1 & Hs1 & Ht1 & Hz1 & Hp1).
  destruct (IH w1 response1 fuel Hexit1) as (response2 & w2 & Hrun & Hexit2 & Hs2 & Ht2 & Hz2 & Hp2).
  { intros i o' Hi. rewrite Hs1, length_app. simpl.
    replace (length (sent w) + 1 + i)%nat with (length (sent w) + S i)%nat by lia.
    by apply Hnet. }
  exists response2, w2. cbn [length Nat.add]. rewrite Hturn, Hrun.
  split; [done|]. split; [done|].
  rewrite Hs2, Ht2, Hz2, Hp2, Hs1, Ht1, Hz1, Hp1. simpl.
  by rewrite <- !app_assoc.
Qed.
End TransportScripts.

(** X5. After any number of retried outcomes, an exception of
    [requests.post] other than the browser's is raised to the caller as it
    is: one post for each outcome and one for the failed attempt, and the
    query counter unchanged. *)
Theorem safe_post_request_propagates_exception
    (net : Network) post_json verbose w os exc_type fuel :
  Forall retried os →
  (∀ i o, os !! i = Some o → net (length (sent w) + i)%nat post_json = o) →
  net (length (sent w) + length os)%nat post_json = Throws exc_type →
  exc_type ≠ PYODIDE_EXCEPTION →
  ∃ w',
    safe_post_request net (length os + S fuel) post_json verbose w
    = Some (Raise (RequestException exc_type), w')
    ∧ sent w' = sent w ++ repeat post_json (S (length os))
    ∧ total_queries w' = total_queries w
    ∧ slept w' = slept w ++ map wait_for os.
Proof.
  intros Hos Hnet Hlast Hne.
  destruct (post_loop_script net post_json verbose os Hos w None (S fuel) eq_refl Hnet)
    as (response & w1 & Hrun & Hexit & Hs & Ht & Hz & _).
  unfold safe_post_request. rewrite Hrun. cbn [post_loop]. rewrite Hexit.
  rewrite Hs, length_app, repeat_length, Hlast.
  apply String.eqb_neq in Hne. rewrite Hne.
  eexists. split; [reflexivity|]. simpl. rewrite Hs, Ht, Hz.
  split; [|done]. rewrite <- app_assoc. f_equal.
  change [post_json] with (repeat post_json 1). by rewrite <- repeat_app, Nat.add_1_r.
Qed.

(** X6. The browser's exception is treated as a rate limit: after each of [n]
    of them the call waits 61 seconds and posts again, and the waiting message
    is printed and erased each time even when [verbose] is false; the counter
    is incremented once, for the answer that follows. *)
Theorem safe_post_request_waits_on_browser_exception (net : Network) post_json w n r fuel :
  (∀ i, (i < n)%nat →
        net (length (sent w) + i)%nat post_json = Throws PYODIDE_EXCEPTION) →
  net (length (sent w) + n)%nat post_json = Responds r →
  status_code r ≠ 429 →
  integer_retry_after r →
  ∃ w1,
    post_loop net (n + S fuel) post_json false None w = Some (Ok r, w1)
    ∧ safe_post_request net (n + S fuel) post_json false w = Some (finish r w1)
    ∧ sent w1 = sent w ++ repeat post_json (S n)
    ∧ slept w1 = slept w ++ repeat (Seconds 61) n ++ [wait_after r]
    ∧ stdout w1 = stdout w ++ concat (repeat (printed_around (retry_msg 61)) n)
    ∧ total_queries (finish r w1).2 = total_queries w + 1.
Proof.
  intros Hthrows Hlast Hr Hint.
  set (os := repeat (Throws PYODIDE_EXCEPTION) n).
  assert (Hlen : length os = n) by apply repeat_length.
  destruct (post_loop_script net post_json false os) with (w := w) (response := @None Response)
    (fuel := S fuel) as (response & w1 & Hrun & Hexit & Hs & Ht & Hz & Hp).
  { apply Forall_forall. intros o ->%list_elem_of_In%repeat_spec. done. }
  { done. }
  { intros i o Hi. pose proof (lookup_lt_Some _ _ _ Hi) as Hlt.
    apply list_elem_of_lookup_2, list_elem_of_In, repeat_spec in Hi as ->.
    apply Hthrows. lia. }
  rewrite Hlen in *.
  destruct (post_loop_responds net fuel post_json false response r w1 Hexit)
    as (w2 & Hturn & Hs2 & Ht2 & Hz2); [by rewrite Hs, length_app, repeat_length|done|].
  assert (Hout : stdout w2 = stdout w1).
  { revert Hturn. cbn [post_loop]. rewrite Hexit.
    rewrite Hs, length_app, repeat_length, Hlast.
    unfold integer_retry_after in Hint.
    assert (Hexit_r : loop_exit (Some r) = Some r).
    { simpl. by destruct (Z.eqb_spec (status_code r) 429). }
    destruct (retry_after r) as [[k|t]|]; [|done|];
      rewrite !(post_loop_exit net _ _ _ _ r) by done; by intros [= <-]. }
  exists w2. rewrite Hrun, Hturn.
  assert (Hloop : post_loop net fuel post_json false (Some r) w2 = Some (Ok r, w2)).
  { apply post_loop_exit. simpl. by destruct (Z.eqb_spec (status_code r) 429). }
  split; [done|]. split; [unfold safe_post_request; by rewrite Hrun, Hturn, Hloop|].
  destruct (finish_effects r w2) as (_ & _ & Ftq).
  rewrite Ftq, Hs2, Ht2, Hz2, Hout, Hs, Ht, Hz, Hp.
  split; [|split; [|split; [|done]]].
  - rewrite <- app_assoc. f_equal.
    change [post_json] with (repeat post_json 1). by rewrite <- repeat_app, Nat.add_1_r.
  - rewrite <- app_assoc. do 2 f_equal. subst os. clear.
    induction n as [|n IH]; simpl; by rewrite ?IH.
  - f_equal. subst os. clear. induction n as [|n IH]; simpl; by rewrite ?IH.
Qed.

(** X7. A [Retry-After] header that [int] cannot read makes the call raise
    ValueError, whatever the status of the answer, a success included: the
    data of the answer is not returned and the counter is not incremented. *)
Theorem safe_post_request_rejects_retry_after_text
    (net : Network) post_json verbose w os r text fuel :
  Forall retried os →
  (∀ i o, os !! i = Some o → net (length (sent w) + i)%nat post_json = o) →
  net (length (sent w) + length os)%nat post_json = Responds r →
  retry_after r = Some (RetryText text) →
  ∃ w',
    safe_post_request net (length os + S fuel) post_json verbose w
    = Some (Raise ValueError, w')
    ∧ sent w' = sent w ++ repeat post_json (S (length os))
    ∧ total_queries w' = total_queries w.
Proof.
  intros Hos Hnet Hlast Htext.
  destruct (post_loop_script net post_json verbose os Hos w None (S fuel) eq_refl Hnet)
    as (response & w1 & Hrun & Hexit & Hs & Ht & _).
  unfold safe_post_request. rewrite Hrun. cbn [post_loop]. rewrite Hexit.
  rewrite Hs, length_app, repeat_length, Hlast, Htext.
  eexists. split; [reflexivity|]. simpl. rewrite Hs, Ht.
  split; [|done]. rewrite <- app_assoc. f_equal.
  change [post_json] with (repeat post_json 1). by rewrite <- repeat_app, Nat.add_1_r.
Qed.

Section TransportEffects.
Variable net : Network.

Lemma post_loop_effects post_json verbose fuel :
  ∀ response w res w',
    post_loop net fuel post_json verbose response w = Some (res, w') →
    ∃ k, sent w' = sent w ++ repeat post_json k
         ∧ (loop_exit response = None → (1 ≤ k)%nat)
         ∧ total_queries w' = total_queries w
         ∧ stdout w `prefix_of` stdout w'
         ∧ slept w `prefix_of` slept w'.
Proof.
  induction fuel as [|fuel IH]; intros response w res w'; cbn [post_loop];
    destruct (loop_exit response) as [r0|] eqn:Hexit.
  1, 3: intros [= <- <-]; exists 0%nat; simpl; rewrite app_nil_r;
        repeat split; done.
  { done. }
  assert (Hstep : ∀ response1 w1,
            sent w1 = sent w ++ [post_json] → total_queries w1 = total_queries w →
            stdout w `prefix_of` stdout w1 → slept w `prefix_of` slept w1 →
            post_loop net fuel post_json verbose response1 w1 = Some (res, w') →
            ∃ k, sent w' = sent w ++ repeat post_json k
                 ∧ (@None Response = None → (1 ≤ k)%nat)
                 ∧ total_queries w' = total_queries w
                 ∧ stdout w `prefix_of` stdout w'
                 ∧ slept w `prefix_of` slept w').
  { intros response1 w1 Hs Ht Hp Hz Hrun.
    destruct (IH _ _ _ _ Hrun) as (k & Hs' & _ & Ht' & Hp' & Hz').
    exists (S k). rewrite Hs', Hs, Ht', Ht, <- app_assoc.
    split; [done|]. split; [lia|]. split; [done|].
    split; by etrans. }
  destruct (net (length (sent w)) post_json) as [r|exc_type].
  - destruct (retry_after r) as [[n|t]|].
    + apply Hstep; destruct verbose; simpl; try done; try (by apply prefix_app_r).
      rewrite <- app_assoc. by apply prefix_app_r.
    + intros [= <- <-]. exists 1%nat. simpl. repeat split; done.
    + apply Hstep; simpl; try done; by apply prefix_app_r.
  - destruct (String.eqb exc_type PYODIDE_EXCEPTION).
    + apply Hstep; simpl; try done; try (by apply prefix_app_r).
      rewrite <- app_assoc. by apply prefix_app_r.
    + intros [= <- <-]. exists 1%nat. simpl. repeat split; done.
Qed.
End TransportEffects.

(** X8. Whatever the server does, a call that comes back has posted its
    request body at least once and nothing else, has only added to what was
    printed and slept, and has left the query counter as it was or one higher:
    one higher whenever it returns a value, and only if an answer that is not
    a 429 was received. *)
Theorem safe_post_request_effects (net : Network) fuel post_json verbose w res w' :
  safe_post_request net fuel post_json verbose w = Some (res, w') →
  ∃ k, (1 ≤ k)%nat
       ∧ sent w' = sent w ++ repeat post_json k
       ∧ stdout w `prefix_of` stdout w'
       ∧ slept w `prefix_of` slept w'
       ∧ (total_queries w' = total_queries w
          ∨ total_queries w' = total_queries w + 1)
       ∧ (is_raise res = false → total_queries w' = total_queries w + 1)
       ∧ (total_queries w' = total_queries w + 1 →
          ∃ r w1, post_loop net fuel post_json verbose None w = Some (Ok r, w1)
                  ∧ status_code r ≠ 429).
Proof.
  unfold safe_post_request.
  destruct (post_loop net fuel post_json verbose None w) as [[[r|e] w1]|] eqn:Hloop;
    [| |done].
  - destruct (post_loop_effects net _ _ _ _ _ _ _ Hloop) as (k & Hs & Hk & Ht & Hp & Hz).
    pose proof (post_loop_ok_not_429 net _ _ _ _ _ _ _ Hloop) as H429.
    destruct (finish_effects r w1) as (Fs & Fz & Ft).
    intros Hfin. assert (res = (finish r w1).1 ∧ w' = (finish r w1).2) as [-> ->]
      by (injection Hfin as Hfin; by rewrite Hfin).
    exists k. split; [by apply Hk|]. rewrite Fs, Fz, Ft, Hs, Ht.
    split; [done|]. split.
    { etrans; [done|]. unfold finish. destruct (negb (response_ok r)); [|done].
      destruct (_ ≫= _) as [[|]|]; [|done|done].
      destruct (_ ≫= _); [|done]. by apply prefix_app_r. }
    split; [done|]. split; [by right|]. split; [done|]. intros _. by exists r, w1.
  - intros [= <- <-].
    destruct (post_loop_effects net _ _ _ _ _ _ _ Hloop) as (k & Hs & Hk & Ht & Hp & Hz).
    exists k. split; [by apply Hk|]. split; [done|]. split; [done|]. split; [done|].
    split; [by left|]. split; [done|]. lia.
Qed.

Section Verbose.
Variable net : Network.

Lemma post_loop_verbose post_json v1 v2 fuel :
  ∀ response w1 w2,
    same_but_stdout w1 w2 →
    same_outcome (post_loop net fuel post_json v1 response w1)
                 (post_loop net fuel post_json v2 response w2).
Proof.
  unfold same_outcome, same_but_stdout.
  induction fuel as [|fuel IH]; intros response w1 w2 (Hs & Ht & Hz);
    cbn [post_loop]; destruct (loop_exit response) as [r0|];
    try (by constructor).
  rewrite <- Hs.
  destruct (net (length (sent w1)) post_json) as [r|exc_type].
  - destruct (retry_after r) as [[n|t]|].
    + apply IH. destruct v1, v2; simpl; by rewrite Hs, Ht, Hz.
    + constructor. simpl. by rewrite Hs, Ht, Hz.
    + apply IH. simpl. by rewrite Hs, Ht, Hz.
  - destruct (String.eqb exc_type PYODIDE_EXCEPTION).
    + apply IH. simpl. by rewrite Hs, Ht, Hz.
    + constructor. simpl. by rewrite Hs, Ht, Hz.
Qed.

Lemma finish_verbose r w1 w2 :
  same_but_stdout w1 w2 →
  (finish r w1).1 = (finish r w2).1 ∧ same_but_stdout (finish r w1).2 (finish r w2).2.
Proof.
  unfold same_but_stdout, finish. intros (Hs & Ht & Hz).
  destruct (negb (response_ok r)); [|simpl; by rewrite Hs, Ht, Hz].
  destruct (_ ≫= _) as [[|]|]; [|simpl; by rewrite Hs, Ht, Hz..].
  destruct (_ ≫= _); simpl; by rewrite Hs, Ht, Hz.
Qed.

Lemma safe_post_request_verbose_from post_json v1 v2 fuel w1 w2 :
  same_but_stdout w1 w2 →
  same_outcome (safe_post_request net fuel post_json v1 w1)
               (safe_post_request net fuel post_json v2 w2).
Proof.
  intros Hw. unfold safe_post_request.
  destruct (post_loop_verbose post_json v1 v2 fuel None w1 w2 Hw)
    as [[[r1|e1] w1'] [[r2|e2] w2'] [Hres Hsame]|]; simpl in *; try done.
  - injection Hres as <-. constructor. by apply finish_verbose.
  - injection Hres as <-. by constructor.
  - constructor.
Qed.

Lemma page_loop_verbose query v1 v2 fuel :
  ∀ pv out_list page_num w1 w2,
    same_but_stdout w1 w2 →
    same_outcome (page_loop net fuel query pv v1 out_list page_num w1)
                 (page_loop net fuel query pv v2 out_list page_num w2).
Proof.
  induction fuel as [|fuel IH]; intros pv out_list page_num w1 w2 Hw;
    cbn [page_loop]; [constructor|].
  destruct (safe_post_request_verbose_from
              (page_request query (dict_set "page" (JInt page_num) pv)) v1 v2 fuel w1 w2 Hw)
    as [[[d1|e1] w1'] [[d2|e2] w2'] [Hres Hsame]|]; simpl in *; try done;
    [|injection Hres as <-; by constructor|constructor].
  injection Hres as <-.
  destruct (unwrap_loop fuel d1) as [[d|e]|]; [|by constructor|constructor].
  destruct (page_items d) as [items|e]; [|by constructor].
  destruct (has_next_page d) as [[|]|e]; [by apply IH|by constructor..].
Qed.
End Verbose.

(** X9. [verbose] changes nothing but what is printed: with either value,
    [safe_post_request] and [depaginated_request] come back or not alike, with
    the same result, the same requests sent, the same waits and the same query
    count. *)
Theorem verbose_only_prints (net : Network) fuel post_json query variables v1 v2 w :
  same_outcome (safe_post_request net fuel post_json v1 w)
               (safe_post_request net fuel post_json v2 w)
  ∧ same_outcome (depaginated_request net fuel query variables v1 w)
                 (depaginated_request net fuel query variables v2 w).
Proof.
  split.
  - by apply safe_post_request_verbose_from.
  - by apply page_loop_verbose.
Qed.

(** ** More on the pagination driver *)





Lemma repeat_snoc {A} (x : A) n : repeat x n ++ [x] = repeat x (S n).
Proof. induction n as [|n IH]; simpl; by rewrite ?IH. Qed.

Section ScriptedPages.
Variable net : Network.


End ScriptedPages.


Section PageRequests.
Variable net : Network.

Lemma page_loop_requests query verbose variables fuel :
  ∀ pv out_list page w res w',
    1 ≤ page →
    (∀ i, dict_set "page" (JInt i) pv = page_variables variables i) →
    page_loop net fuel query pv verbose out_list page w = Some (res, w') →
    ∃ reqs,
      sent w' = sent w ++ reqs
      ∧ reqs ≠ []
      ∧ Forall (λ pj, ∃ i, page ≤ i
                           ∧ pj = page_request query (page_variables variables i)) reqs.
Proof.
  induction fuel as [|fuel IH]; intros pv out_list page w res w' Hpage Hpv;
    cbn [page_loop]; [done|].
  destruct (safe_post_request net fuel _ verbose w) as [[[d|e] w1]|] eqn:Hsend; [| |done].
  2: { intros [= <- <-].
       destruct (safe_post_request_effects net _ _ _ _ _ _ Hsend) as (k & Hk & Hs & _).
       exists (repeat (page_request query (dict_set "page" (JInt page) pv)) k).
       split; [done|]. split; [by destruct k; [lia|]|].
       apply Forall_forall. intros pj ->%list_elem_of_In%repeat_spec.
       exists page. by rewrite Hpv. }
  destruct (safe_post_request_effects net _ _ _ _ _ _ Hsend) as (k & Hk & Hs & _).
  assert (Hhere : Forall (λ pj, ∃ i, page ≤ i
                    ∧ pj = page_request query (page_variables variables i))
            (repeat (page_request query (dict_set "page" (JInt page) pv)) k)).
  { apply Forall_forall. intros pj ->%list_elem_of_In%repeat_spec.
    exists page. by rewrite Hpv. }
  assert (Hstop : ∀ r : Result (list json),
            ∃ reqs, sent w1 = sent w ++ reqs ∧ reqs ≠ []
              ∧ Forall (λ pj, ∃ i, page ≤ i
                          ∧ pj = page_request query (page_variables variables i)) reqs).
  { intros _. eexists. split; [done|]. split; [by destruct k; [lia|]|done]. }
  destruct (unwrap_loop fuel d) as [[obj|e]|]; [| |done].
  2: { intros [= <- <-]. by apply (Hstop (Raise e)). }
  destruct (page_items obj) as [items|e]; [|intros [= <- <-]; by apply (Hstop (Raise e))].
  destruct (has_next_page obj) as [[|]|e];
    [|intros [= <- <-]; by apply (Hstop (Ok []))
     |intros [= <- <-]; by apply (Hstop (Raise e))].
  intros Hrun.
  apply IH in Hrun as (reqs & Hs' & _ & Hall);
    [|lia|by intros i; rewrite dict_set_set].
  eexists. split; [by rewrite Hs', Hs, <- app_assoc|].
  split; [by destruct k; [lia|]|].
  apply Forall_app. split; [done|].
  eapply Forall_impl; [done|]. intros pj (i & Hi & ->). exists i. split; [lia|done].
Qed.
End PageRequests.

(** X12. Whatever the server does, every request [depaginated_request] sends
    is the query with the caller's variables in which [perPage] is 50 and
    [page] is a page number from 1 on: a [page] or [perPage] of the caller is
    overridden, every other variable is passed as given. *)
Theorem depaginated_request_requests
    (net : Network) fuel query variables verbose w res w' :
  depaginated_request net fuel query variables verbose w = Some (res, w') →
  (∃ reqs,
     sent w' = sent w ++ reqs
     ∧ reqs ≠ []
     ∧ Forall (λ pj, ∃ i, 1 ≤ i
                          ∧ pj = page_request query (page_variables variables i)) reqs)
  ∧ ∀ i key,
      dict_get key (page_variables variables i)
      = if String.eqb key "page" then Some (JInt i)
        else if String.eqb key "perPage" then Some (JInt 50)
        else dict_get key variables.
Proof.
  intros Hrun. split.
  - unfold depaginated_request in Hrun.
    by apply (page_loop_requests net query verbose variables) in Hrun.
  - intros i key. unfold page_variables.
    destruct (String.eqb key "page") eqn:Hp.
    { apply String.eqb_eq in Hp as ->. apply dict_get_set_eq. }
    apply String.eqb_neq in Hp. rewrite dict_get_set_ne by done.
    destruct (String.eqb key "perPage") eqn:Hpp.
    { apply String.eqb_eq in Hpp as ->. apply dict_get_set_eq. }
    apply String.eqb_neq in Hpp. by rewrite dict_get_set_ne.
Qed.

(** X13. A page response that unwraps to [null], a boolean or a number makes
    the driver raise TypeError, not its assertion, at the test for
    [pageInfo]; nothing is requested after it. *)
Theorem depaginated_request_type_error
    (net : Network) fuel query paginated_variables verbose out_list page_num w d w1 n d' :
  safe_post_request net fuel
    (page_request query (dict_set "page" (JInt page_num) paginated_variables)) verbose w
    = Some (Ok d, w1) →
  unwraps_to n d d' →
  (d' = JNull ∨ (∃ b, d' = JBool b) ∨ (∃ z, d' = JInt z)) →
  (n ≤ fuel)%nat →
  page_loop net (S fuel) query paginated_variables verbose out_list page_num w
  = Some (Raise TypeError, w1).
Proof.
  intros Hsend Hunwrap Hscalar Hfuel. cbn [page_loop]. rewrite Hsend.
  rewrite (unwrap_loop_reaches n d d' Hunwrap fuel Hfuel).
  destruct Hscalar as [->|[[b ->]|[z ->]]]; by destruct (fuel - n)%nat.
Qed.

(** ** More on the relation graph walker *)

Lemma yields_app evs1 evs2 : yields (evs1 ++ evs2) = yields evs1 ++ yields evs2.
Proof. apply omap_app. Qed.

Section WalkVisits.
Variable graph : Z → list Relation.
Variable pop_choice : nat → nat.
Variable root : Z.

#[local] Abbreviation step := (step graph pop_choice).
#[local] Abbreviation run := (run graph pop_choice).
#[local] Abbreviation history_inv := (history_inv graph root).
#[local] Abbreviation visit_inv := (visit_inv graph root).

Lemma step_visit evs g :
  walker_inv g → show_id g = root → history_inv evs g →
  visit_inv evs g → visit_inv (evs ++ (run 1 g).1) (run 1 g).2.
Proof.
  rewrite run_one. intros (Hroot & Hqueue & _) Hid (_ & Hrels & _) (Hseen & Hvisited & Hyielded).
  unfold visit_inv, for_rest, pc_relations in *.
  unfold step, chain, goto.
  destruct (pc g) as [|[|relation relations]|relation relations|] eqn:Hpc; simpl.
  - destruct (set_pop _ _) as [[cur queue']|] eqn:Hpop; simpl.
    + split; [|split].
      * intros y r. rewrite fetches_app. simpl.
        intros [Hy| ->%list_elem_of_singleton]%elem_of_app Hr; [|by right].
        destruct (Hseen y r Hy Hr) as [?|Hin]; [by left|by apply elem_of_nil in Hin].
      * intros x Hx. rewrite yields_app. simpl. rewrite app_nil_r. by apply Hvisited.
      * intros m. rewrite yields_app, fetches_app. simpl. rewrite app_nil_r.
        intros Hm. destruct (Hyielded m Hm) as (y & r & Hy & Hr). exists y, r.
        split; [set_solver|done].
    + rewrite app_nil_r. split; [|split]; [|done..].
      intros y r Hy Hr. destruct (Hseen y r Hy Hr); [by left|by right].
  - rewrite app_nil_r. split; [|split]; [|done..].
    intros y r Hy Hr. destruct (Hseen y r Hy Hr); [by left|by right].
  - case_bool_decide as Hin; simpl.
    { rewrite app_nil_r. split; [|split]; [|done..].
      intros y r Hy Hr. destruct (Hseen y r Hy Hr) as [?|[->|?]%elem_of_cons];
        [by left|by left|by right]. }
    assert (id (node relation) ≠ show_id g) as Hne by (intros Heq; by rewrite Heq in Hin).
    rewrite (bool_decide_eq_true_2 _ Hne). simpl.
    split; [|split].
    + intros y r. rewrite fetches_app. simpl. rewrite app_nil_r. intros Hy Hr.
      destruct (Hseen y r Hy Hr) as [?|[->|?]%elem_of_cons];
        [left; set_solver|left; set_solver|by right].
    + intros x. rewrite yields_app. simpl. rewrite fmap_app. simpl.
      intros [Hx| ->%elem_of_singleton]%elem_of_union.
      * destruct (Hvisited x Hx); [by left|right; set_solver].
      * right. set_solver.
    + intros m. rewrite yields_app, fetches_app. simpl. rewrite app_nil_r.
      intros [Hm| ->%list_elem_of_singleton]%elem_of_app; [by apply Hyielded|].
      destruct (Hrels relation) as (y & Hy & Hr); [set_solver|]. by exists y, relation.
  - rewrite app_nil_r.
    destruct (not_chained relation); simpl; (split; [|split]; [|done..]);
      intros y r Hy Hr; (destruct (Hseen y r Hy Hr); [by left|by right]).
  - rewrite Hpc, app_nil_r. done.
Qed.

Lemma run_visit n :
  visit_inv (run n (get_related_media root)).1 (run n (get_related_media root)).2.
Proof.
  induction n as [|n IH].
  - simpl. split; [|split].
    + by intros y r ?%elem_of_nil.
    + intros x Hx. left. simpl in Hx. set_solver.
    + by intros m ?%elem_of_nil.
  - replace (S n) with (n + 1)%nat by lia. rewrite run_add. simpl fst. simpl snd.
    destruct (run_trace graph pop_choice n (get_related_media root)
                (walker_inv_start root)) as (Hinv & Hid & _).
    apply step_visit; [done|done|apply run_history|done].
Qed.

(** The first step of a walk fetches the root. *)
Lemma run_fetches_root n :
  (run (S n) (get_related_media root)).1
  = Fetched root :: (run n (step (get_related_media root)).2).1.
Proof.
  replace (S n) with (1 + n)%nat by lia. rewrite run_add, run_one.
  assert (Hstep : (step (get_related_media root)).1 = Some (Fetched root)).
  { unfold step. cbn [pc get_related_media queue pops]. unfold set_pop.
    rewrite elements_singleton. cbn [length]. rewrite Nat.mod_1_r. reflexivity. }
  simpl fst. by rewrite Hstep.
Qed.
End WalkVisits.

(** X14. When a walk has ended, the ids it has yielded are exactly the ids,
    other than the root, of the nodes of the relations of the medias it has
    fetched; and every node yielded, at any time, is the node of a relation of
    a media fetched before. *)
Theorem walker_yields_neighbours_of_fetched
    (graph : Z → list Relation) (pop_choice : nat → nat) root n :
  let evs := (run graph pop_choice n (get_related_media root)).1 in
  (∀ m, m ∈ yields evs → ∃ y r, y ∈ fetches evs ∧ r ∈ graph y ∧ node r = m)
  ∧ (pc (run graph pop_choice n (get_related_media root)).2 = AtEnd →
     ∀ x, x ∈ id <$> yields evs
          ↔ x ≠ root ∧ ∃ y r, y ∈ fetches evs ∧ r ∈ graph y ∧ id (node r) = x).
Proof.
  intros evs.
  destruct (run_visit graph pop_choice root n) as (Hseen & Hvisited & Hyielded).
  split; [done|]. intros Hend x. split.
  - intros Hx. split.
    + destruct (run_trace graph pop_choice n (get_related_media root)
                  (walker_inv_start root)) as (_ & _ & _ & _ & Hys & _).
      intros ->. apply Hys in Hx as [Hx _]. simpl in Hx. set_solver.
    + apply list_elem_of_fmap in Hx as (m & -> & Hm).
      destruct (Hyielded m Hm) as (y & r & Hy & Hr & <-). by exists y, r.
  - intros (Hne & y & r & Hy & Hr & <-).
    destruct (Hseen y r Hy Hr) as [Hin|Hin].
    + by destruct (Hvisited _ Hin).
    + unfold for_rest in Hin. rewrite Hend in Hin. by apply elem_of_nil in Hin.
Qed.

(** X15. A walk that has ended has fetched its root and has yielded the node
    of every relation of the root, whatever the relation type, except nodes
    that are the root itself. *)
Theorem walker_yields_direct_relations
    (graph : Z → list Relation) (pop_choice : nat → nat) root n :
  pc (run graph pop_choice n (get_related_media root)).2 = AtEnd →
  root ∈ fetches (run graph pop_choice n (get_related_media root)).1
  ∧ ∀ r, r ∈ graph root → id (node r) ≠ root →
         id (node r) ∈ id <$> yields (run graph pop_choice n (get_related_media root)).1.
Proof.
  intros Hend.
  assert (Hroot : root ∈ fetches (run graph pop_choice n (get_related_media root)).1).
  { destruct n as [|n]; [done|]. rewrite run_fetches_root. simpl. by left. }
  split; [done|]. intros r Hr Hne.
  destruct (run_visit graph pop_choice root n) as (Hseen & Hvisited & _).
  destruct (Hseen root r Hroot Hr) as [Hin|Hin].
  - by destruct (Hvisited _ Hin).
  - unfold for_rest in Hin. rewrite Hend in Hin. by apply elem_of_nil in Hin.
Qed.

Lemma NoDup_length_size (l : list Z) (X : gset Z) :
  NoDup l → (∀ x, x ∈ l → x ∈ X) → (length l ≤ size X)%nat.
Proof.
  intros Hnd Hsub. rewrite <- (size_list_to_set (C := gset Z) l) by done.
  apply subseteq_size. set_solver.
Qed.

(** X16. When the nodes of all relations lie in a finite set, a walk makes at
    most one relation query for each of them and one for the root, and yields
    at most as many nodes as the set has. *)
Theorem walker_query_bound
    (graph : Z → list Relation) (pop_choice : nat → nat) (nodes : gset Z) root n :
  (∀ i relation, relation ∈ graph i → id (node relation) ∈ nodes) →
  (length (fetches (run graph pop_choice n (get_related_media root)).1)
   ≤ S (size nodes))%nat
  ∧ (length (yields (run graph pop_choice n (get_related_media root)).1)
     ≤ size nodes)%nat.
Proof.
  intros Hnodes.
  destruct (run_trace graph pop_choice n (get_related_media root)
              (walker_inv_start root)) as (_ & _ & _ & Hndy & _ & Hndf & _).
  destruct (run_history graph pop_choice root n) as (_ & _ & Hjust).
  destruct (run_visit graph pop_choice root n) as (_ & _ & Hyielded).
  split.
  - etrans; [apply (NoDup_length_size _ ({[root]} ∪ nodes) Hndf)|].
    + intros x Hx. destruct (Hjust x Hx) as [->|(y & r & _ & Hr & <- & _)]; [set_solver|].
      apply elem_of_union_r. by eapply Hnodes.
    + rewrite size_union_alt, size_singleton.
      pose proof (subseteq_size (nodes ∖ {[root]}) nodes). 
      assert (size (nodes ∖ {[root]}) ≤ size nodes)%nat by (apply subseteq_size; set_solver).
      lia.
  - rewrite <- (length_fmap id). apply NoDup_length_size; [done|].
    intros x (m & -> & Hm)%list_elem_of_fmap.
    destruct (Hyielded m Hm) as (y & r & _ & Hr & <-). by eapply Hnodes.
Qed.

(** X17. What a walk finds is not determined by the graph: on a graph where a
    node is a side story of one queued media and a sequel of another, the
    sequel of that node is yielded under one order of [queue.pop()] and is not
    under another. *)
Theorem walker_depends_on_pop_order :
  ∃ (graph : Z → list Relation) (order1 order2 : nat → nat) root n x,
    pc (run graph order1 n (get_related_media root)).2 = AtEnd
    ∧ pc (run graph order2 n (get_related_media root)).2 = AtEnd
    ∧ x ∈ id <$> yields (run graph order1 n (get_related_media root)).1
    ∧ x ∉ id <$> yields (run graph order2 n (get_related_media root)).1.
Proof.
  exists diamond_graph, (λ _, 0%nat),
    (λ k, match k with 1%nat => 1%nat | _ => 0%nat end), 1, 20%nat, 5.
  split; [by vm_compute|]. split; [by vm_compute|].
  split; apply (bool_decide_unpack _); by vm_compute.
Qed.

(** ** More on the membership matcher *)

Section MatcherAndWalk.
Variable graph : Z → list Relation.
Variable pop_choice : nat → nat.

#[local] Abbreviation step := (step graph pop_choice).
#[local] Abbreviation run := (run graph pop_choice).
#[local] Abbreviation anext := (anext graph pop_choice).

(** What [__anext__] hands out is what the steps it ran yielded. *)
Lemma anext_run fuel :
  ∀ g r g', anext fuel g = Some (r, g') →
    ∃ k, (run k g).2 = g'
         ∧ yields (run k g).1 = match r with Some m => [m] | None => [] end
         ∧ (r = None → pc g' = AtEnd).
Proof.
  induction fuel as [|fuel IH]; intros g r g'.
  { simpl. destruct (pc g) eqn:Hpc; try done. intros [= <- <-]. by exists 0%nat. }
  assert (pc g = AtEnd ∨ pc g ≠ AtEnd) as [Hpc|Hpc]
    by (destruct (pc g); (by left) || (by right)).
  { simpl. rewrite Hpc. intros [= <- <-]. by exists 0%nat. }
  rewrite anext_S by done.
  destruct (step g) as [[[cur|show]|] g1] eqn:Hstep.
  - intros Hnext. destruct (IH _ _ _ Hnext) as (k & Hg & Hy & Hend).
    exists (S k). simpl. rewrite Hstep. destruct (run k g1) as [evs g2]. by simpl in *.
  - intros [= <- <-]. exists 1%nat. simpl. rewrite Hstep. by simpl.
  - intros Hnext. destruct (IH _ _ _ Hnext) as (k & Hg & Hy & Hend).
    exists (S k). simpl. rewrite Hstep. destruct (run k g1) as [evs g2]. by simpl in *.
Qed.

Lemma pulls_run fuel j :
  ∀ g ms g', pulls (anext fuel) j g = Some (ms, g') →
    ∃ k, (run k g).2 = g' ∧ yields (run k g).1 = ms.
Proof.
  induction j as [|j IH]; intros g ms g'.
  { intros [= <- <-]. by exists 0%nat. }
  rewrite pulls_S. destruct (anext fuel g) as [[[m|] g1]|] eqn:Hnext; [|done|done].
  destruct (pulls (anext fuel) j g1) as [[l g2]|] eqn:Hp; [|done]. intros [= <- <-].
  destruct (anext_run _ _ _ _ Hnext) as (k1 & Hg1 & Hy1 & _).
  destruct (IH _ _ _ Hp) as (k2 & Hg2 & Hy2).
  exists (k1 + k2)%nat. rewrite run_add. simpl. rewrite Hg1, Hg2, yields_app, Hy1, Hy2.
  done.
Qed.

(** The events of an ended walk extend those of any of its prefixes, and two
    ended prefixes are the same. *)
Lemma run_extends n k g :
  pc (run n g).2 = AtEnd → ∃ evs, (run n g).1 = (run k g).1 ++ evs.
Proof.
  intros Hend. destruct (decide (k ≤ n)%nat) as [Hle|Hgt].
  - replace n with (k + (n - k))%nat by lia. rewrite run_add. by eexists.
  - exists []. replace k with (n + (k - n))%nat by lia. rewrite run_add.
    rewrite (run_at_end graph pop_choice _ _ Hend). simpl. by rewrite !app_nil_r.
Qed.

Lemma run_ended_same n k g :
  pc (run n g).2 = AtEnd → pc (run k g).2 = AtEnd → (run n g).1 = (run k g).1.
Proof.
  intros Hn Hk.
  destruct (run_extends n k g Hn) as [e1 H1].
  destruct (run_extends k n g Hk) as [e2 H2].
  rewrite H2, <- app_assoc in H1.
  rewrite <- (app_nil_r (run n g).1) in H1 at 1.
  apply app_inv_head in H1. symmetry in H1. apply app_eq_nil in H1 as [-> _].
  by rewrite H2, app_nil_r.
Qed.
End MatcherAndWalk.

(** X18. Stopping at the first match does not change the answer: on a walk
    that ends, the matcher returns [true] exactly when some node the whole
    walk yields has its id in the user set. *)
Theorem has_upcoming_relation_is_any
    (graph : Z → list Relation) (pop_choice : nat → nat) fuel show_id
    (user_media_ids : gset pykey) b g' n :
  has_upcoming_relation graph pop_choice fuel show_id user_media_ids = Some (b, g') →
  pc (run graph pop_choice n (get_related_media show_id)).2 = AtEnd →
  b = true
  ↔ ∃ m, m ∈ yields (run graph pop_choice n (get_related_media show_id)).1
         ∧ KInt (id m) ∈ user_media_ids.
Proof.
  unfold has_upcoming_relation. intros Hany Hend.
  apply async_any_genexpr in Hany as (pre & _ & Hpre & Hb).
  destruct b.
  - split; [intros _|done].
    destruct Hb as (m & Hm & Hp). apply bool_decide_eq_true in Hm.
    apply pulls_run in Hp as (k & _ & Hy).
    destruct (run_extends graph pop_choice n k _ Hend) as [evs Hevs].
    exists m. split; [|done]. rewrite Hevs, yields_app, Hy. set_solver.
  - split; [done|]. intros (m & Hm & Hin).
    destruct Hb as (g1 & Hp & Hstop).
    apply pulls_run in Hp as (k1 & Hg1 & Hy1).
    apply anext_run in Hstop as (k2 & Hg2 & Hy2 & Hend2). specialize (Hend2 eq_refl).
    assert (Hk : pc (run graph pop_choice (k1 + k2) (get_related_media show_id)).2 = AtEnd).
    { rewrite run_add. simpl. by rewrite Hg1, Hg2. }
    rewrite (run_ended_same graph pop_choice n (k1 + k2) _ Hend Hk) in Hm.
    rewrite run_add in Hm. simpl in Hm. rewrite yields_app, Hy1, Hg1, Hy2, app_nil_r in Hm.
    rewrite Forall_forall in Hpre. specialize (Hpre m Hm).
    apply bool_decide_eq_false in Hpre. done.
Qed.

(** ** More on the entry point *)

(** X19. For a month from 1 to 12 the four searches are for four
    consecutive seasons: counting seasons from WINTER of year 0, the [i]-th
    search is for season number [4 * year + month // 3 + i]; and the first is
    the season that holds the month after the current one. *)
Theorem searched_seasons_consecutive cur_year cur_month i :
  1 ≤ cur_month ≤ 12 →
  0 ≤ i ≤ 3 →
  ∃ season year k,
    searched_season cur_year cur_month i = Ok (season, year)
    ∧ SEASONS !! k = Some season
    ∧ 4 * year + Z.of_nat k = 4 * cur_year + cur_month / 3 + i
    ∧ (i = 0 →
       4 * year + Z.of_nat k
       = 4 * (next_month cur_year cur_month).1
         + quarter_of_month (next_month cur_year cur_month).2).
Proof.
  intros Hm Hi. unfold searched_season, list_getitem, seq_index, next_month,
    quarter_of_month.
  assert (Hmod : 0 ≤ (cur_month / 3 + i) mod 4 < 4) by (apply Z.mod_pos_bound; lia).
  set (q := (cur_month / 3 + i) mod 4) in *.
  assert (Hdiv : cur_month / 3 + i = 4 * ((cur_month / 3 + i) / 4) + q)
    by (apply Z.div_mod; lia).
  set (c := (cur_month / 3 + i) / 4) in *.
  assert (q = 0 ∨ q = 1 ∨ q = 2 ∨ q = 3) as Hq by lia.
  assert (Hnext : i = 0 →
            4 * (if cur_month =? 12 then (cur_year + 1, 1) else (cur_year, cur_month + 1)).1
            + ((if cur_month =? 12 then (cur_year + 1, 1) else (cur_year, cur_month + 1)).2 - 1) / 3
            = 4 * cur_year + cur_month / 3 + i).
  { clear. intros ->. destruct (Z.eqb_spec cur_month 12) as [->|Hne]; cbn [fst snd].
    - Z.to_euclidean_division_equations. lia.
    - replace (cur_month + 1 - 1) with cur_month by lia. lia. }
  destruct Hq as [Hq|[Hq|[Hq|Hq]]]; rewrite Hq in *; simpl.
  - exists "WINTER", (cur_year + c), 0%nat. repeat split; try done; try lia.
  - exists "SPRING", (cur_year + c), 1%nat. repeat split; try done; try lia.
  - exists "SUMMER", (cur_year + c), 2%nat. repeat split; try done; try lia.
  - exists "FALL", (cur_year + c), 3%nat. repeat split; try done; try lia.
Qed.

Lemma mapM_Ok {A B} (f : A → Result B) l ys :
  mapM f l = Ok ys ↔ Forall2 (λ x y, f x = Ok y) l ys.
Proof.
  revert ys. induction l as [|x l IH]; intros ys; simpl.
  - split; [intros [= <-]; constructor|by intros ->%Forall2_nil_inv_l].
  - destruct (f x) as [y|e] eqn:Hx; simpl.
    + destruct (mapM f l) as [ys'|e] eqn:Hl; simpl.
      * split.
        -- intros [= <-]. constructor; [done|]. by apply IH.
        -- intros (y' & ys'' & Hy & Hys & ->)%Forall2_cons_inv_l.
           apply IH in Hys. injection Hys as <-. rewrite Hx in Hy.
           injection Hy as <-. reflexivity.
      * split; [done|].
        intros (y' & ys'' & Hy & Hys & ->)%Forall2_cons_inv_l.
        apply IH in Hys. done.
    + split; [done|]. intros (y' & ys'' & Hy & _)%Forall2_cons_inv_l. congruence.
Qed.

Lemma mapM_Raise {A B} (f : A → Result B) l e :
  mapM f l = Raise e → ∃ x, x ∈ l ∧ f x = Raise e.
Proof.
  induction l as [|x l IH]; simpl; [done|].
  destruct (f x) as [y|e'] eqn:Hx; simpl.
  - destruct (mapM f l) as [ys'|e'] eqn:Hl; simpl; [done|].
    intros [= ->]. destruct (IH eq_refl) as (x0 & Hin & Hx0).
    exists x0. split; [by right|done].
  - intros [= ->]. exists x. split; [by left|done].
Qed.

(** X20. The id set of a media list: when it is built, it holds exactly the
    ids of the medias of the list, as set elements (so twice the same id
    counts once); it fails exactly when some media has no [id] or an id that
    cannot be hashed, with the error of such a media. *)
Theorem media_id_set_spec media_list :
  (∀ ids, media_id_set media_list = Ok ids →
     ∀ x, x ∈ ids ↔ ∃ media, media ∈ media_list ∧ hashed_id media = Ok x)
  ∧ (∀ e, media_id_set media_list = Raise e →
       ∃ media, media ∈ media_list ∧ hashed_id media = Raise e)
  ∧ ((∃ media, media ∈ media_list ∧ is_raise (hashed_id media) = true)
     → is_raise (media_id_set media_list) = true).
Proof.
  unfold media_id_set. fold hashed_id.
  change (mapM (λ media, v ← item media "id"; py_hashable v) media_list)
    with (mapM hashed_id media_list).
  destruct (mapM hashed_id media_list) as [keys|e0] eqn:Hmap; simpl.
  - apply mapM_Ok in Hmap. split; [|split]; [|done|].
    + intros ids [= <-] x. rewrite elem_of_list_to_set. split.
      * intros Hx. apply list_elem_of_lookup in Hx as [i Hi].
        destruct (Forall2_lookup_r _ _ _ _ _ Hmap Hi) as (media & Hm & Hf).
        exists media. split; [by eapply list_elem_of_lookup_2|done].
      * intros (media & Hin & Hh).
        apply list_elem_of_lookup in Hin as [i Hi].
        destruct (Forall2_lookup_l _ _ _ _ _ Hmap Hi) as (k & Hk & Hf).
        simpl in Hf. rewrite Hh in Hf. injection Hf as <-.
        by eapply list_elem_of_lookup_2.
    + intros (media & Hin & Hraise).
      apply list_elem_of_lookup in Hin as [i Hi].
      destruct (Forall2_lookup_l _ _ _ _ _ Hmap Hi) as (k & Hk & Hf).
      simpl in Hf. by rewrite Hf in Hraise.
  - split; [done|]. split; [|done].
    intros e [= <-]. by apply mapM_Raise in Hmap.
Qed.

Lemma depaginated_request_paged_source items query variables verbose w fuel :
  (Z.to_nat (pages_requested (Z.of_nat (length items))) < fuel)%nat →
  ∃ w',
    depaginated_request (paged_source items) fuel query variables verbose w
    = Some (Ok items, w')
    ∧ total_queries w' = total_queries w + pages_requested (Z.of_nat (length items)).
Proof.
  intros Hfuel. unfold depaginated_request.
  pose proof (Z.le_max_l 1 (ceil_div (Z.of_nat (length items)) MAX_PAGE_SIZE)) as Hone.
  fold (pages_requested (Z.of_nat (length items))) in Hone.
  destruct (page_loop_complete items query verbose
              (Z.to_nat (pages_requested (Z.of_nat (length items)) - 1)) 1
              (dict_set "perPage" (JInt MAX_PAGE_SIZE) variables) [] w fuel)
    as (w' & Hrun & _ & Htq & _); [lia|done|apply dict_get_set_eq|lia|].
  exists w'. rewrite Hrun, Htq. simpl. split; [done|]. lia.
Qed.

Lemma mapM_entries media_list :
  mapM (λ list_entry, item list_entry "media") (entry_of <$> media_list) = Ok media_list.
Proof.
  induction media_list as [|m l IH]; [done|].
  rewrite fmap_cons. cbn [mapM]. rewrite IH. reflexivity.
Qed.

(** X21. [get_user_media] returns the media of every entry of the user's
    list, in the order of the list and across all its pages; an entry that is
    an object without [media] makes it raise KeyError once the pages are
    fetched. *)
Theorem get_user_media_returns_medias media_list entries user_id status w fuel :
  (Z.to_nat (pages_requested (Z.of_nat (length media_list))) < fuel)%nat →
  (Z.to_nat (pages_requested (Z.of_nat (length entries))) < fuel)%nat →
  (∃ w',
     get_user_media (paged_source (entry_of <$> media_list)) fuel user_id status w
     = Some (Ok media_list, w')
     ∧ total_queries w'
       = total_queries w + pages_requested (Z.of_nat (length media_list)))
  ∧ (∀ kvs, JObj kvs ∈ entries → dict_get "media" kvs = None →
       (∀ entry, entry ∈ entries → ∃ kvs', entry = JObj kvs') →
       ∃ w',
         get_user_media (paged_source entries) fuel user_id status w
         = Some (Raise (KeyError (JStr "media")), w')).
Proof.
  intros Hfuel1 Hfuel2. unfold get_user_media. split.
  - destruct (depaginated_request_paged_source (entry_of <$> media_list)
                query_user_media [("userId", user_id); ("status", JStr status)] true w fuel)
      as (w' & -> & Htq); [by rewrite length_fmap|].
    exists w'. simpl. rewrite mapM_entries. rewrite length_fmap in Htq. done.
  - intros kvs Hin Hnone Hobjs.
    destruct (depaginated_request_paged_source entries
                query_user_media [("userId", user_id); ("status", JStr status)] true w fuel)
      as (w' & -> & _); [done|].
    exists w'. simpl. do 2 f_equal.
    destruct (mapM (λ list_entry, item list_entry "media") entries) as [ms|e] eqn:Hmap.
    + apply mapM_Ok in Hmap. apply list_elem_of_lookup in Hin as [i Hi].
      destruct (Forall2_lookup_l _ _ _ _ _ Hmap Hi) as (m & _ & Hm).
      unfold item in Hm. simpl in Hm. by rewrite Hnone in Hm.
    + apply mapM_Raise in Hmap as (entry & Hentry & Hraise).
      destruct (Hobjs entry Hentry) as [kvs' ->].
      unfold item in Hraise. simpl in Hraise.
      destruct (dict_get "media" kvs'); [done|]. by injection Hraise as <-.
Qed.

(** ** Fuzzy dates *)

(** X22. Dropping precision never turns a yes into a no: when a full date is
    on or after [date], the same date without its day is, and a date with a
    month that is, is so without its month; a date with no field at all always
    is. *)
Theorem fuzzy_date_coarsening y m d date :
  (fuzzy_date_greater_or_equal_to {| year := Some y; month := Some m; day := Some d |} date
   = Ok true →
   fuzzy_date_greater_or_equal_to {| year := Some y; month := Some m; day := None |} date
   = Ok true)
  ∧ (fuzzy_date_greater_or_equal_to {| year := Some y; month := Some m; day := None |} date
     = Ok true →
     fuzzy_date_greater_or_equal_to {| year := Some y; month := None; day := None |} date
     = Ok true)
  ∧ fuzzy_date_greater_or_equal_to {| year := None; month := None; day := None |} date
    = Ok true.
Proof.
  unfold fuzzy_date_greater_or_equal_to. simpl. split; [|split; [|done]].
  - unfold datetime.make. destruct (_ && _); [|done]. simpl.
    unfold datetime.geb. simpl. intros [= H]. f_equal.
    apply Is_true_true. apply Is_true_true in H.
    rewrite ?orb_True, ?andb_True, ?Is_true_true, ?Z.ltb_lt, ?Z.leb_le, ?Z.eqb_eq in *.
    lia.
  - intros [= H]. f_equal.
    apply Is_true_true. apply Is_true_true in H.
    rewrite ?orb_True, ?andb_True, ?Is_true_true, ?Z.ltb_lt, ?Z.leb_le, ?Z.eqb_eq in *.
    lia.
Qed.


(** ** Instances *)

Lemma safe_post_request_propagates_exception_witness :
  ∃ w',
    safe_post_request dropping_net (length [Responds rate_limited_reply] + 1) JNull true
      init_world
    = Some (Raise (RequestException CONNECTION_ERROR), w')
    ∧ sent w' = sent init_world ++ repeat JNull (S (length [Responds rate_limited_reply]))
    ∧ total_queries w' = total_queries init_world
    ∧ slept w' = slept init_world ++ map wait_for [Responds rate_limited_reply].
Proof.
  apply (safe_post_request_propagates_exception dropping_net JNull true init_world
           [Responds rate_limited_reply] CONNECTION_ERROR 0).
  - repeat constructor.
  - intros [|i] o; simpl; [by intros [= <-]|done].
  - reflexivity.
  - discriminate.
Defined.

Lemma safe_post_request_waits_on_browser_exception_witness :
  ∃ w1,
    post_loop browser_net (2 + 1) JNull false None init_world
    = Some (Ok (success_reply (JInt 7)), w1)
    ∧ safe_post_request browser_net (2 + 1) JNull false init_world
      = Some (finish (success_reply (JInt 7)) w1)
    ∧ sent w1 = sent init_world ++ repeat JNull 3
    ∧ slept w1 = slept init_world ++ repeat (Seconds 61) 2
                 ++ [wait_after (success_reply (JInt 7))]
    ∧ stdout w1 = stdout init_world ++ concat (repeat (printed_around (retry_msg 61)) 2)
    ∧ total_queries (finish (success_reply (JInt 7)) w1).2 = total_queries init_world + 1.
Proof.
  apply (safe_post_request_waits_on_browser_exception browser_net JNull init_world 2
           (success_reply (JInt 7)) 0).
  - intros [|[|i]] Hi; simpl; [reflexivity|reflexivity|lia].
  - reflexivity.
  - simpl. lia.
  - exact I.
Defined.

Lemma safe_post_request_rejects_retry_after_text_witness :
  ∃ w',
    safe_post_request (λ _ _, Responds dated_reply) (length (@nil HttpOutcome) + 1)
      JNull true init_world
    = Some (Raise ValueError, w')
    ∧ sent w' = sent init_world ++ repeat JNull (S (length (@nil HttpOutcome)))
    ∧ total_queries w' = total_queries init_world.
Proof.
  apply (safe_post_request_rejects_retry_after_text (λ _ _, Responds dated_reply) JNull true
           init_world [] dated_reply "Wed, 21 Oct 2015 07:28:00 GMT" 0).
  - constructor.
  - intros i o. simpl. by rewrite lookup_nil.
  - reflexivity.
  - reflexivity.
Defined.

Lemma safe_post_request_effects_witness :
  ∃ k, (1 ≤ k)%nat
       ∧ sent {| sent := [JNull; JNull]; total_queries := 1; stdout := [];
                 slept := [Seconds 3; TenthOfSecond] |}
         = sent init_world ++ repeat JNull k
       ∧ stdout init_world `prefix_of` @nil Printed
       ∧ slept init_world `prefix_of` [Seconds 3; TenthOfSecond]
       ∧ (1 = total_queries init_world ∨ 1 = total_queries init_world + 1)
       ∧ (is_raise (Ok (JInt 7)) = false → 1 = total_queries init_world + 1)
       ∧ (1 = total_queries init_world + 1 →
          ∃ r w1, post_loop (limited_once (JInt 7)) 2 JNull false None init_world
                  = Some (Ok r, w1)
                  ∧ status_code r ≠ 429).
Proof.
  apply (safe_post_request_effects (limited_once (JInt 7)) 2 JNull false init_world
           (Ok (JInt 7))
           {| sent := [JNull; JNull]; total_queries := 1; stdout := [];
              slept := [Seconds 3; TenthOfSecond] |}).
  reflexivity.
Defined.



Lemma depaginated_request_requests_witness :
  (∃ reqs,
     sent {| sent := [page_request "query" [("perPage", JInt 50); ("page", JInt 1)]];
             total_queries := 1; stdout := []; slept := [TenthOfSecond] |}
     = sent init_world ++ reqs
     ∧ reqs ≠ []
     ∧ Forall (λ pj, ∃ i, 1 ≤ i ∧ pj = page_request "query" (page_variables [] i)) reqs)
  ∧ ∀ i key,
      dict_get key (page_variables [] i)
      = if String.eqb key "page" then Some (JInt i)
        else if String.eqb key "perPage" then Some (JInt 50)
        else dict_get key [].
Proof.
  apply (depaginated_request_requests (paged_source []) 2 "query" [] true init_world (Ok [])).
  reflexivity.
Defined.

Lemma depaginated_request_type_error_witness :
  page_loop (λ _ _, Responds (success_reply (JObj [("Page", JNull)]))) 2
    "query" [("perPage", JInt 50)] true [] 1 init_world
  = Some (Raise TypeError,
          after_request (page_request "query" [("perPage", JInt 50); ("page", JInt 1)])
            init_world).
Proof.
  apply (depaginated_request_type_error
           (λ _ _, Responds (success_reply (JObj [("Page", JNull)]))) 1
           "query" [("perPage", JInt 50)] true [] 1 init_world
           (JObj [("Page", JNull)]) _ 1 JNull).
  - reflexivity.
  - apply unwraps_inner; [discriminate|apply unwraps_here].
  - by left.
  - lia.
Defined.

Lemma walker_yields_direct_relations_witness :
  1 ∈ fetches (run cycle_graph (λ _, 0%nat) 9 (get_related_media 1)).1
  ∧ ∀ r, r ∈ cycle_graph 1 → id (node r) ≠ 1 →
         id (node r) ∈ id <$> yields (run cycle_graph (λ _, 0%nat) 9 (get_related_media 1)).1.
Proof.
  apply (walker_yields_direct_relations cycle_graph (λ _, 0%nat) 1 9).
  vm_compute. reflexivity.
Defined.

Lemma walker_query_bound_witness :
  (length (fetches (run cycle_graph (λ _, 0%nat) 9 (get_related_media 1)).1)
   ≤ S (size ({[1%Z; 2%Z]} : gset Z)))%nat
  ∧ (length (yields (run cycle_graph (λ _, 0%nat) 9 (get_related_media 1)).1)
     ≤ size ({[1%Z; 2%Z]} : gset Z))%nat.
Proof.
  apply (walker_query_bound cycle_graph (λ _, 0%nat) {[1; 2]} 1 9).
  intros i relation. unfold cycle_graph.
  destruct (i =? 1); [|destruct (i =? 2)]; simpl.
  - intros ->%list_elem_of_singleton. simpl. set_solver.
  - intros ->%list_elem_of_singleton. simpl. set_solver.
  - intros []%elem_of_nil.
Defined.

Lemma has_upcoming_relation_is_any_witness :
  true = true
  ↔ ∃ m, m ∈ yields (run three_relations_graph (λ _, 0%nat) 20 (get_related_media 0)).1
         ∧ KInt (id m) ∈ ({[KInt 42]} : gset pykey).
Proof.
  apply (has_upcoming_relation_is_any three_relations_graph (λ _, 0%nat) 5 0 {[KInt 42]} true
           {| show_id := 0; queue := {[1]}; related_show_ids := {[0; 1; 42]};
              pc := AtYield (edge "SEQUEL" 42) [edge "SEQUEL" 999]; pops := 1 |} 20).
  - vm_compute. reflexivity.
  - vm_compute. reflexivity.
Defined.

Lemma searched_seasons_consecutive_witness :
  ∃ season year k,
    searched_season 2026 12 0 = Ok (season, year)
    ∧ SEASONS !! k = Some season
    ∧ 4 * year + Z.of_nat k = 4 * 2026 + 12 / 3 + 0
    ∧ (0 = 0 →
       4 * year + Z.of_nat k
       = 4 * (next_month 2026 12).1 + quarter_of_month (next_month 2026 12).2).
Proof.
  apply (searched_seasons_consecutive 2026 12 0); lia.
Defined.

Example december_search :
  searched_season 2026 12 0 = Ok ("WINTER", 2027)
  ∧ searched_season 2026 12 3 = Ok ("FALL", 2027)
  ∧ searched_season 2026 2 0 = Ok ("WINTER", 2026)
  ∧ searched_season 2026 3 0 = Ok ("SPRING", 2026).
Proof. by vm_compute. Qed.

Lemma get_user_media_returns_medias_witness :
  (∃ w',
     get_user_media (paged_source (entry_of <$> [JObj [("id", JInt 10)]])) 3 (JInt 7)
       "COMPLETED" init_world
     = Some (Ok [JObj [("id", JInt 10)]], w')
     ∧ total_queries w'
       = total_queries init_world
         + pages_requested (Z.of_nat (length [JObj [("id", JInt 10)]])))
  ∧ (∀ kvs, JObj kvs ∈ [JObj [("score", JInt 9)]] → dict_get "media" kvs = None →
       (∀ entry, entry ∈ [JObj [("score", JInt 9)]] → ∃ kvs', entry = JObj kvs') →
       ∃ w',
         get_user_media (paged_source [JObj [("score", JInt 9)]]) 3 (JInt 7) "COMPLETED"
           init_world
         = Some (Raise (KeyError (JStr "media")), w')).
Proof.
  apply (get_user_media_returns_medias [JObj [("id", JInt 10)]] [JObj [("score", JInt 9)]]
           (JInt 7) "COMPLETED" init_world 3); vm_compute; lia.
Defined.

Lemma page_variables_get variables i key :
  dict_get key (page_variables variables i)
  = if String.eqb key "page" then Some (JInt i)
    else if String.eqb key "perPage" then Some (JInt 50)
    else dict_get key variables.
Proof.
  unfold page_variables.
  destruct (String.eqb key "page") eqn:Hp.
  { apply String.eqb_eq in Hp as ->. apply dict_get_set_eq. }
  apply String.eqb_neq in Hp. rewrite dict_get_set_ne by done.
  destruct (String.eqb key "perPage") eqn:Hpp.
  { apply String.eqb_eq in Hpp as ->. apply dict_get_set_eq. }
  apply String.eqb_neq in Hpp. by rewrite dict_get_set_ne.
Qed.

(** X24. [get_season_shows] returns the shows of the season in the order
    the server lists them, across all pages; and whatever the server does,
    each of its requests is the season query with [season] and [seasonYear] as
    given, [perPage] 50 and a page number. *)
Theorem get_season_shows_returns_shows shows season season_year w fuel :
  (Z.to_nat (pages_requested (Z.of_nat (length shows))) < fuel)%nat →
  (∃ w',
     get_season_shows (paged_source shows) fuel season season_year w = Some (Ok shows, w')
     ∧ total_queries w' = total_queries w + pages_requested (Z.of_nat (length shows)))
  ∧ ∀ (net : Network) res w',
      get_season_shows net fuel season season_year w = Some (res, w') →
      ∃ reqs,
        sent w' = sent w ++ reqs
        ∧ Forall (λ pj, ∃ i pv,
                    pj = page_request query_season_shows pv
                    ∧ dict_get "season" pv = Some (JStr season)
                    ∧ dict_get "seasonYear" pv = Some (JInt season_year)
                    ∧ dict_get "perPage" pv = Some (JInt 50)
                    ∧ dict_get "page" pv = Some (JInt i)
                    ∧ 1 ≤ i) reqs.
Proof.
  intros Hfuel. unfold get_season_shows. split.
  - by apply depaginated_request_paged_source.
  - intros net res w' Hrun. unfold depaginated_request in Hrun.
    apply (page_loop_requests net query_season_shows true
             [("season", JStr season); ("seasonYear", JInt season_year)]) in Hrun
      as (reqs & Hs & _ & Hall); [|lia|done].
    exists reqs. split; [done|].
    eapply Forall_impl; [done|]. intros pj (i & Hi & ->).
    exists i, (page_variables [("season", JStr season); ("seasonYear", JInt season_year)] i).
    rewrite !page_variables_get. by repeat split.
Qed.

Lemma get_season_shows_returns_shows_witness :
  (∃ w',
     get_season_shows (paged_source [show_of JNull]) 3 "WINTER" 2027 init_world
     = Some (Ok [show_of JNull], w')
     ∧ total_queries w'
       = total_queries init_world + pages_requested (Z.of_nat (length [show_of JNull])))
  ∧ ∀ (net : Network) res w',
      get_season_shows net 3 "WINTER" 2027 init_world = Some (res, w') →
      ∃ reqs,
        sent w' = sent init_world ++ reqs
        ∧ Forall (λ pj, ∃ i pv,
                    pj = page_request query_season_shows pv
                    ∧ dict_get "season" pv = Some (JStr "WINTER")
                    ∧ dict_get "seasonYear" pv = Some (JInt 2027)
                    ∧ dict_get "perPage" pv = Some (JInt 50)
                    ∧ dict_get "page" pv = Some (JInt i)
                    ∧ 1 ≤ i) reqs.
Proof.
  apply (get_season_shows_returns_shows [show_of JNull] "WINTER" 2027 init_world 3).
  vm_compute. lia.
Defined.
